(** * briefcase: precedential case-based reasoning

    A shallow embedding of [briefcase.py] (classes [Factor], [Case],
    [PriorityOrder]) and the properties of its consistency algorithm.

    Conventions of the embedding:
    - a [frozenset] of factors is a [gset Factor]; equality of frozensets is
      Leibniz equality of [gset]s;
    - a [defaultdict(set)] is an insertion-ordered association list of
      buckets with pairwise distinct keys (a Python [dict] iterates in
      insertion order); reading a missing key inserts an empty bucket;
    - a method of [PriorityOrder] is a computation in a state-and-exception
      monad over the two dictionaries of the object; the state reached when
      an exception is raised is kept, as it is in Python;
    - iteration over a [set] follows [elements] (Python leaves that order
      unspecified). *)

From stdpp Require Import base decidable countable gmap strings list sorting relations.

Set Warnings "-clear-no-such-hyp".

(** ** Values *)

(** [decision_enum = Enum("Decision", ["pi", "delta", "un"])] *)
Inductive decision_enum : Type := pi | delta | un.

(** The values the code stores as a polarity or a decision: a member of
    [decision_enum], or a plain string (the default polarity of [Factor] is
    the string ["un"]). *)
Inductive pyval : Type :=
  | VEnum (d : decision_enum)
  | VStr (s : string).

Inductive exn : Type := KeyError | ValueError | TypeError | RuntimeError.

Inductive result (A : Type) : Type :=
  | Ok (a : A)
  | Raise (e : exn).
Arguments Ok {A} a.
Arguments Raise {A} e.

Definition is_raise {A} (r : result A) : Prop :=
  match r with Ok _ => False | Raise _ => True end.

#[global] Instance decision_enum_eq_dec : EqDecision decision_enum.
Proof. solve_decision. Defined.

#[global] Instance exn_eq_dec : EqDecision exn.
Proof. solve_decision. Defined.

#[global] Instance pyval_eq_dec : EqDecision pyval.
Proof. solve_decision. Defined.

Definition decision_enum_to_nat (d : decision_enum) : nat :=
  match d with pi => 0 | delta => 1 | un => 2 end.

Definition decision_enum_of_nat (n : nat) : decision_enum :=
  match n with 0 => pi | 1 => delta | _ => un end.

#[global] Instance decision_enum_countable : Countable decision_enum.
Proof.
  apply (inj_countable' decision_enum_to_nat decision_enum_of_nat).
  intros []; reflexivity.
Defined.

Definition pyval_to_sum (v : pyval) : decision_enum + string :=
  match v with VEnum d => inl d | VStr s => inr s end.

Definition pyval_of_sum (x : decision_enum + string) : pyval :=
  match x with inl d => VEnum d | inr s => VStr s end.

#[global] Instance pyval_countable : Countable pyval.
Proof.
  apply (inj_countable' pyval_to_sum pyval_of_sum).
  intros []; reflexivity.
Defined.

(** Python's [==] between two such values: enum members are equal to
    themselves only, and a string never equals an enum member. *)
Definition py_eqb (a b : pyval) : bool := bool_decide (a = b).

(** ** Factor *)

Record Factor : Type := mkFactor { name : string; polarity : pyval }.

#[global] Instance Factor_eq_dec : EqDecision Factor.
Proof. solve_decision. Defined.

#[global] Instance Factor_countable : Countable Factor.
Proof.
  apply (inj_countable' (λ f, (name f, polarity f)) (λ p, mkFactor p.1 p.2)).
  intros []; reflexivity.
Defined.

(** [Factor.__init__(self, name, polarity="un")]: an absent argument is
    [None]. The constructor has no failing path. *)
Definition Factor_init (name : string) (polarity : option pyval) : result Factor :=
  Ok (mkFactor name (default (VStr "un") polarity)).

(** [Factor.__eq__] between two factors. *)
Definition Factor_eq (self other : Factor) : bool :=
  bool_decide (name self = name other) && py_eqb (polarity self) (polarity other).

Abbreviation fset := (gset Factor).

(** ** Case *)

Record Case : Type := mkCase {
  pi_factors : fset;
  delta_factors : fset;
  decision : pyval;
  reason : fset
}.

(** [Case.__init__] with its keyword defaults. *)
Definition Case_init (pi_factors delta_factors : option fset)
    (decision : option pyval) (reason : option fset) : result Case :=
  Ok (mkCase (default ∅ pi_factors) (default ∅ delta_factors)
             (default (VEnum un) decision) (default ∅ reason)).

(** [Case.defeated] *)
Definition defeated (self : Case) : fset :=
  if py_eqb (decision self) (VEnum pi) then delta_factors self
  else if py_eqb (decision self) (VEnum delta) then pi_factors self
  else ∅.

(** [Case.relevant_diff_from] *)
Definition relevant_diff_from (self other_case : Case) : fset :=
  if py_eqb (decision self) (decision other_case)
  then reason other_case ∖ reason self
  else reason other_case ∖ defeated self.

(** The record read by [Case.from_dict]: the four keys it looks up, with
    factor names as strings. *)
Record case_dict : Type := mkDict {
  dic_pi : list string;
  dic_delta : list string;
  dic_decision : string;
  dic_reason : list string
}.

(** The members of [decision_enum] by name. *)
Definition decision_members : list (string * decision_enum) :=
  [("pi", pi); ("delta", delta); ("un", un)].

(** [decision_enum[label]]: lookup of a member by its name, a [KeyError]
    when there is none. *)
Definition decision_enum_getitem (label : string) : result decision_enum :=
  match list_find (λ m, m.1 = label) decision_members with
  | Some (_, m) => Ok m.2
  | None => Raise KeyError
  end.

(** [frozenset(Factor(f, p) for f in names)] *)
Definition factor_set (p : decision_enum) (names : list string) : fset :=
  list_to_set (map (λ f, mkFactor f (VEnum p)) names).

Definition winning_factors (dic : case_dict) (decision_value : decision_enum) : fset :=
  if bool_decide (decision_value = pi)
  then factor_set pi (dic_pi dic)
  else factor_set delta (dic_delta dic).

(** [Case.from_dict] *)
Definition from_dict (dic : case_dict) : result Case :=
  let pi_factors := factor_set pi (dic_pi dic) in
  let delta_factors := factor_set delta (dic_delta dic) in
  match decision_enum_getitem (dic_decision dic) with
  | Raise _ => Raise KeyError
  | Ok decision_value =>
      let reason_factors := factor_set decision_value (dic_reason dic) in
      if bool_decide (reason_factors ⊆ winning_factors dic decision_value)
      then Ok (mkCase pi_factors delta_factors (VEnum decision_value) reason_factors)
      else Raise ValueError
  end.

(** ** defaultdict(set) *)

Section defaultdict.
Context {K V : Type} `{EqDecision K} `{Countable V}.

Definition defaultdict : Type := list (K * gset V).

Fixpoint dd_lookup (k : K) (d : defaultdict) : option (gset V) :=
  match d with
  | [] => None
  | (k', b) :: rest => if decide (k = k') then Some b else dd_lookup k rest
  end.

(** The bucket found under [k], empty when the key is absent. *)
Definition dd_bucket (k : K) (d : defaultdict) : gset V :=
  default ∅ (dd_lookup k d).

Definition dd_keys (d : defaultdict) : list K := d.*1.

(** [d[k]]: a missing key is inserted with a fresh empty set. *)
Definition dd_getitem (k : K) (d : defaultdict) : gset V * defaultdict :=
  match dd_lookup k d with
  | Some b => (b, d)
  | None => (∅, d ++ [(k, ∅)])
  end.

(** [d[k].add(x)]: the bucket of [k] is updated in place, and created at
    the end of the dictionary when [k] is new. *)
Fixpoint dd_add (k : K) (x : V) (d : defaultdict) : defaultdict :=
  match d with
  | [] => [(k, {[x]})]
  | (k', b) :: rest =>
      if decide (k = k') then (k', {[x]} ∪ b) :: rest
      else (k', b) :: dd_add k x rest
  end.
End defaultdict.

Arguments defaultdict K V {_ _} : assert.

(** ** PriorityOrder *)

Record PriorityOrder : Type := mkPO {
  order : defaultdict fset fset;
  defeated_factor_index : defaultdict Factor fset
}.

(** [PriorityOrder.__init__] *)
Definition PriorityOrder_init : PriorityOrder := mkPO [] [].

(** Computations on a [PriorityOrder]: a result or an exception, and the
    state of the object afterwards. *)
Definition M (A : Type) : Type := PriorityOrder → result A * PriorityOrder.

Definition ret {A} (a : A) : M A := λ s, (Ok a, s).

Definition raise {A} (e : exn) : M A := λ s, (Raise e, s).

Definition bind {A B} (m : M A) (f : A → M B) : M B :=
  λ s, match m s with
       | (Ok a, s') => f a s'
       | (Raise e, s') => (Raise e, s')
       end.

Definition lift {A} (r : result A) : M A := λ s, (r, s).

Notation "x <- m ;; k" := (bind m (λ x, k))
  (at level 100, m at next level, k at level 200, right associativity).
Notation "m ;;; k" := (bind m (λ _, k))
  (at level 100, k at level 200, right associativity).

(** The outcome of one round of a loop body: go on with the loop variables
    [a], or leave the enclosing function with [return r]. *)
Inductive step (Acc R : Type) : Type :=
  | Next (a : Acc)
  | Return (r : R).
Arguments Next {Acc R} a.
Arguments Return {Acc R} r.

(** [for x in xs: body]. [next] is what the iterator does before it hands
    out an element or stops: nothing for a list, the "changed size during
    iteration" test for a live [set] or [dict]. *)
Fixpoint for_each {A Acc R} (next : M unit) (xs : list A)
    (body : A → Acc → M (step Acc R)) (acc : Acc) : M (step Acc R) :=
  next ;;;
  match xs with
  | [] => ret (Next acc)
  | x :: rest =>
      r <- body x acc ;;
      match r with
      | Next acc' => for_each next rest body acc'
      | Return v => ret (Return v)
      end
  end.

(** A comprehension [[f(x) for x in xs]]. *)
Fixpoint comprehension {A B} (f : A → M B) (xs : list A) : M (list B) :=
  match xs with
  | [] => ret []
  | x :: rest => y <- f x ;; ys <- comprehension f rest ;; ret (y :: ys)
  end.

(** The iterator of the set [self.order[r]], created when it held [n]
    elements. *)
Definition set_iter_next (r : fset) (n : nat) : M unit :=
  λ s, if decide (size (dd_bucket r (order s)) = n) then (Ok (), s)
       else (Raise RuntimeError, s).

(** The iterator of the dictionary [self.order], created when it held [n]
    keys. *)
Definition dict_iter_next (n : nat) : M unit :=
  λ s, if decide (length (order s) = n) then (Ok (), s)
       else (Raise RuntimeError, s).

Definition list_iter_next : M unit := ret ().

(** [self.defeated_factor_index[factor]] *)
Definition index_getitem (factor : Factor) : M (gset fset) :=
  λ s, let '(b, d) := dd_getitem factor (defeated_factor_index s) in
       (Ok b, mkPO (order s) d).

(** [self.order[key]] *)
Definition order_getitem (key : fset) : M (gset fset) :=
  λ s, let '(b, d) := dd_getitem key (order s) in
       (Ok b, mkPO d (defeated_factor_index s)).

(** [sorted(sets, key=lambda x: len(x))] *)
Definition sorted_by_len (sets : list (gset fset)) : list (gset fset) :=
  merge_sort (λ x y, size x ≤ size y) (H := λ x y, decide (size x ≤ size y)) sets.

(** [frozenset.intersection] applied to the unpacked list [sets]: the
    unbound method takes its receiver from the first argument and has none
    when the list is empty. *)
Definition frozenset_intersection (sets : list (gset fset)) : result (gset fset) :=
  match sets with
  | [] => Raise TypeError
  | x :: rest => Ok (foldl (∩) x rest)
  end.

(** [any(reason.issubset(new_defeated) for reason in reasons)] *)
Definition any_subset (new_defeated : fset) (reasons : gset fset) : bool :=
  existsb (λ reason, bool_decide (reason ⊆ new_defeated)) (elements reasons).

(** [PriorityOrder.is_consistent] *)
Definition is_consistent (new_reason new_defeated : fset) : M bool :=
  buckets <- comprehension index_getitem (elements new_reason) ;;
  let defeats_that_intersect : gset (gset fset) := list_to_set buckets in
  let sorted_defeats_that_intersect :=
    sorted_by_len (elements defeats_that_intersect) in
  supersets <- lift (frozenset_intersection sorted_defeats_that_intersect) ;;
  reasons_sets <- comprehension order_getitem (elements supersets) ;;
  ret (negb (existsb (any_subset new_defeated) reasons_sets)).

(** [PriorityOrder.is_cb_consistent] *)
Definition is_cb_consistent : M bool :=
  items <- (λ s, (Ok (order s), s)) ;;
  r <- for_each (dict_iter_next (length items)) items
        (λ '(defeated, _) (_ : unit),
           reason_set <- (λ s, (Ok (dd_bucket defeated (order s)), s)) ;;
           for_each (set_iter_next defeated (size reason_set)) (elements reason_set)
             (λ reason (_ : unit),
                b <- is_consistent reason defeated ;;
                if negb b then ret (Return false) else ret (Next ()))
             ()) () ;;
  match r with
  | Next _ => ret true
  | Return b => ret b
  end.

(** [PriorityOrder.count_inconsistencies]. The loop variables are named as
    in the source: [reason] is the key and [defeated] ranges over its
    bucket. *)
Definition count_inconsistencies : M nat :=
  items <- (λ s, (Ok (order s), s)) ;;
  r <- for_each (R := nat) (dict_iter_next (length items)) items
        (λ '(reason, _) (count : nat),
           defeated_set <- (λ s, (Ok (dd_bucket reason (order s)), s)) ;;
           for_each (set_iter_next reason (size defeated_set)) (elements defeated_set)
             (λ defeated (count : nat),
                b <- is_consistent reason defeated ;;
                if negb b then ret (Next (count + 1)) else ret (Next count))
             count) 0 ;;
  match r with
  | Next count => ret count
  | Return n => ret n
  end.

(** [PriorityOrder.is_case_consistent_with] *)
Definition is_case_consistent_with (case : Case) : M bool :=
  is_consistent (reason case) (defeated case).

(** [PriorityOrder.add_order_with_subsets] *)
Definition add_order_with_subsets (reason defeated : fset) : M unit :=
  (λ s, (Ok (), mkPO (dd_add defeated reason (order s)) (defeated_factor_index s))) ;;;
  r <- for_each (R := unit) list_iter_next (elements defeated)
        (λ factor (_ : unit),
           (λ s, (Ok (Next ()),
                  mkPO (order s) (dd_add factor defeated (defeated_factor_index s)))))
        () ;;
  ret ().

(** [PriorityOrder.add_pair_as_appropriate] *)
Definition add_pair_as_appropriate (r1 r2 : fset) : M unit :=
  if bool_decide (r1 = r2) then ret ()
  else if bool_decide (r1 ⊆ r2) then add_order_with_subsets r2 r1
  else if bool_decide (r2 ⊆ r1) then add_order_with_subsets r1 r2
  else ret ().

(** [PriorityOrder.unsafe_add_case]. [list(self.order.items())] copies the
    keys and shares the buckets, so that [ds] is read from the dictionary
    when its key is reached. *)
Definition unsafe_add_case (case : Case) : M unit :=
  add_order_with_subsets (reason case) (defeated case) ;;;
  items <- (λ s, (Ok (order s), s)) ;;
  r <- for_each (R := unit) list_iter_next items
        (λ '(r, _) (_ : unit),
           add_pair_as_appropriate (reason case) r ;;;
           ds <- (λ s, (Ok (dd_bucket r (order s)), s)) ;;
           for_each (set_iter_next r (size ds)) (elements ds)
             (λ d (_ : unit),
                add_pair_as_appropriate (reason case) d ;;; ret (Next ()))
             ()) () ;;
  ret ().

(** [PriorityOrder.unsafe_add_cases] *)
Definition unsafe_add_cases (cases : list Case) : M unit :=
  r <- for_each (R := unit) list_iter_next cases
        (λ c (_ : unit), unsafe_add_case c ;;; ret (Next ())) () ;;
  ret ().

(** [PriorityOrder.newly_inconsistent_with] and
    [PriorityOrder.inconsistent_pairs]: both bodies are [pass]. *)
Definition newly_inconsistent_with (case : Case) : M unit := ret ().

Definition inconsistent_pairs : M unit := ret ().

(** A call of a method of [PriorityOrder]. *)
Inductive op : Type :=
  | IsConsistent (new_reason new_defeated : fset)
  | IsCbConsistent
  | CountInconsistencies
  | IsCaseConsistentWith (case : Case)
  | AddPairAsAppropriate (r1 r2 : fset)
  | UnsafeAddCases (cases : list Case)
  | UnsafeAddCase (case : Case)
  | AddOrderWithSubsets (reason defeated : fset)
  | NewlyInconsistentWith (case : Case)
  | InconsistentPairs.

(** The state after a call, whether it returned or raised. *)
Definition run_op (o : op) (s : PriorityOrder) : PriorityOrder :=
  match o with
  | IsConsistent new_reason new_defeated => (is_consistent new_reason new_defeated s).2
  | IsCbConsistent => (is_cb_consistent s).2
  | CountInconsistencies => (count_inconsistencies s).2
  | IsCaseConsistentWith case => (is_case_consistent_with case s).2
  | AddPairAsAppropriate r1 r2 => (add_pair_as_appropriate r1 r2 s).2
  | UnsafeAddCases cases => (unsafe_add_cases cases s).2
  | UnsafeAddCase case => (unsafe_add_case case s).2
  | AddOrderWithSubsets reason defeated => (add_order_with_subsets reason defeated s).2
  | NewlyInconsistentWith case => (newly_inconsistent_with case s).2
  | InconsistentPairs => (inconsistent_pairs s).2
  end.

(** The state after a sequence of calls on a new [PriorityOrder]. *)
Definition run_ops (ops : list op) : PriorityOrder :=
  foldl (λ s o, run_op o s) PriorityOrder_init ops.

(** * Properties *)

(** ** Factor and Case *)

Section values.
Implicit Types (p d r : fset) (dec : pyval).

Lemma py_eqb_true a b : py_eqb a b = true ↔ a = b.
Proof. unfold py_eqb. apply bool_decide_eq_true. Qed.

Lemma Factor_eq_spec (f g : Factor) : Factor_eq f g = true ↔ f = g.
Proof.
  unfold Factor_eq. rewrite andb_true_iff, py_eqb_true, bool_decide_eq_true.
  destruct f, g; simpl. split; [intros [-> ->]; done | intros [= -> ->]; done].
Qed.

Lemma decision_enum_getitem_Ok label m :
  decision_enum_getitem label = Ok m ↔ (label, m) ∈ decision_members.
Proof.
  unfold decision_enum_getitem, decision_members.
  split.
  - destruct (list_find _ _) as [[i [l m']]|] eqn:E; [|done].
    intros [= <-]. apply list_find_Some in E as (Hl & Heq & _).
    simpl in *. subst l. eapply list_elem_of_lookup_2, Hl.
  - rewrite !elem_of_cons, elem_of_nil.
    intros [[= -> ->]|[[= -> ->]|[[= -> ->]|[]]]]; reflexivity.
Qed.

Lemma decision_enum_getitem_Raise label :
  is_raise (decision_enum_getitem label) ↔ label ∉ decision_members.*1.
Proof.
  unfold decision_enum_getitem.
  destruct (list_find _ _) as [[i [l m]]|] eqn:E; cbn [is_raise].
  - apply list_find_Some in E as (Hl & Heq & _). cbn [fst] in Heq. subst l.
    split; [done|]. intros Hn. apply Hn.
    apply list_elem_of_fmap. exists (label, m). split; [done|].
    eapply list_elem_of_lookup_2, Hl.
  - split; [intros _|done]. intros Hin.
    apply list_elem_of_fmap in Hin as ([l m] & -> & Hin).
    eapply list_find_None in E. rewrite Forall_forall in E.
    by apply (E _ Hin).
Qed.
End values.

(** C8. [defeated()] of a case decided for [pi] (Pro) is its [delta_factors]
    (the con side), of a case decided for [delta] (Con) its [pi_factors], and
    of an undecided case the empty set. *)
Theorem defeated_by_decision (p d r : fset) :
  defeated (mkCase p d (VEnum pi) r) = d
  ∧ defeated (mkCase p d (VEnum delta) r) = p
  ∧ defeated (mkCase p d (VEnum un) r) = ∅.
Proof. repeat split. Qed.

(** C10. The constructor of [Case] checks nothing: whatever the factor sets,
    the decision value and the reason, it returns a case whose four fields
    are the four arguments; this holds in particular when the reason is not
    included in the winning side. *)
Theorem Case_init_stores (p d r : fset) (dec : pyval) :
  Case_init (Some p) (Some d) (Some dec) (Some r) = Ok (mkCase p d dec r)
  ∧ (∀ c, Case_init (Some p) (Some d) (Some dec) (Some r) = Ok c →
       pi_factors c = p ∧ delta_factors c = d ∧ decision c = dec ∧ reason c = r).
Proof. split; [done|]. by intros c [= <-]. Qed.

(** A case built directly whose reason is outside its winning side. *)
Example Case_init_unvalidated :
  Case_init (Some ∅) (Some ∅) (Some (VStr "maybe")) (Some {[mkFactor "A" (VEnum pi)]})
  = Ok (mkCase ∅ ∅ (VStr "maybe") {[mkFactor "A" (VEnum pi)]}).
Proof. reflexivity. Qed.

(** C9, as the code has it. The constructor of [Factor] checks nothing: every
    name, the empty one included, with every polarity gives a factor that
    stores both, and two factors are equal exactly when their names and their
    polarities are. *)
Theorem Factor_init_stores (n : string) (pol : pyval) :
  Factor_init n (Some pol) = Ok (mkFactor n pol)
  ∧ (∀ n' pol', Factor_eq (mkFactor n pol) (mkFactor n' pol') = true ↔ n = n' ∧ pol = pol').
Proof.
  split; [done|]. intros n' pol'. rewrite Factor_eq_spec.
  split; [by intros [= -> ->] | by intros [-> ->]].
Qed.

(** C9 fails on the code: a factor with the empty name is constructed, and
    the factor built without a polarity differs from the one built with the
    undecided member of [decision_enum]. *)
Lemma Factor_init_counterexample :
  ¬ ((∀ pol, is_raise (Factor_init "" pol))
     ∧ (∀ n, Factor_init n None = Factor_init n (Some (VEnum un)))).
Proof. intros [H _]. exact (H None). Qed.

(** The default polarity is the string ["un"], which is not a member of
    [decision_enum]. *)
Lemma Factor_init_default_polarity (n : string) :
  Factor_init n None = Ok (mkFactor n (VStr "un"))
  ∧ Factor_eq (mkFactor n (VStr "un")) (mkFactor n (VEnum un)) = false.
Proof.
  split; [done|].
  destruct (Factor_eq _ _) eqn:E; [|done].
  apply Factor_eq_spec in E. discriminate E.
Qed.

Lemma elem_of_factor_set (f : Factor) (p : decision_enum) (names : list string) :
  f ∈ factor_set p names ↔ polarity f = VEnum p ∧ name f ∈ names.
Proof.
  unfold factor_set. rewrite elem_of_list_to_set.
  change (map ?g names) with (g <$> names). rewrite list_elem_of_fmap. split.
  - by intros (n & -> & Hn).
  - intros [Hp Hn]. exists (name f). split; [|done]. destruct f. simpl in *. by subst.
Qed.

(** The three ways out of [Case.from_dict], by the lookup of the label and
    the inclusion test. *)
Lemma from_dict_cases (dic : case_dict) :
  let label := dic_decision dic in
  let bad_reason m := ¬ factor_set m (dic_reason dic) ⊆ winning_factors dic m in
  (is_raise (from_dict dic) ↔
     label ∉ decision_members.*1 ∨ ∃ m, (label, m) ∈ decision_members ∧ bad_reason m)
  ∧ (from_dict dic = Raise KeyError ↔ label ∉ decision_members.*1)
  ∧ (from_dict dic = Raise ValueError ↔
       ∃ m, (label, m) ∈ decision_members ∧ bad_reason m)
  ∧ (∀ c, from_dict dic = Ok c ↔
       ∃ m, (label, m) ∈ decision_members ∧ ¬ bad_reason m
            ∧ c = mkCase (factor_set pi (dic_pi dic)) (factor_set delta (dic_delta dic))
                         (VEnum m) (factor_set m (dic_reason dic))).
Proof.
  intros label bad_reason. subst label bad_reason. cbv beta.
  rewrite <- decision_enum_getitem_Raise.
  setoid_rewrite <- decision_enum_getitem_Ok.
  unfold from_dict.
  destruct (decision_enum_getitem (dic_decision dic)) as [m|e] eqn:E; simpl.
  - case_bool_decide as Hsub; simpl.
    + repeat split; try done.
      * intros [[]|(m' & [= <-] & Hn)]. by apply Hn.
      * intros (m' & [= <-] & Hn). by destruct Hn.
      * intros [= <-]. exists m. split; [done|]. split; [|done].
        intros Hn. by apply Hn.
      * intros (m' & [= <-] & _ & ->). done.
    + repeat split; try done.
      * intros _. right. by exists m.
      * intros _. by exists m.
      * intros (m' & [= <-] & Hn & _). by destruct Hn.
  - repeat split; try done; try (by intros (m' & [=] & _)).
    intros _. by left.
Qed.

Lemma elem_of_winning_factors (dic : case_dict) (m : decision_enum) (f : Factor) :
  f ∈ winning_factors dic m ↔
  match m with
  | pi => polarity f = VEnum pi ∧ name f ∈ dic_pi dic
  | _ => polarity f = VEnum delta ∧ name f ∈ dic_delta dic
  end.
Proof. unfold winning_factors. destruct m; cbn; apply elem_of_factor_set. Qed.

Lemma reason_not_included (dic : case_dict) (m : decision_enum) :
  ¬ factor_set m (dic_reason dic) ⊆ winning_factors dic m ↔
  ∃ n, n ∈ dic_reason dic ∧ mkFactor n (VEnum m) ∉ winning_factors dic m.
Proof.
  split.
  - intros Hn.
    destruct (Forall_Exists_dec (λ n, mkFactor n (VEnum m) ∈ winning_factors dic m)
                (λ n, mkFactor n (VEnum m) ∉ winning_factors dic m)
                (λ n, decide (mkFactor n (VEnum m) ∈ winning_factors dic m))
                (dic_reason dic)) as [Hall|Hex].
    + destruct Hn. intros f [Hp Hf]%elem_of_factor_set.
      rewrite Forall_forall in Hall. specialize (Hall _ Hf).
      destruct f as [n q]. cbn in *. by subst q.
    + apply Exists_exists in Hex as (n & Hin & Hout). by exists n.
  - intros (n & Hin & Hout) Hsub. apply Hout, Hsub. by apply elem_of_factor_set.
Qed.

Lemma decision_members_decoded (label : string) (m : decision_enum) :
  (label, m) ∈ decision_members ↔
  (label = "pi" ∧ m = pi) ∨ (label = "delta" ∧ m = delta) ∨ (label = "un" ∧ m = un).
Proof.
  unfold decision_members. rewrite !elem_of_cons, elem_of_nil.
  split.
  - intros [[= -> ->]|[[= -> ->]|[[= -> ->]|[]]]]; auto.
  - intros [[-> ->]|[[-> ->]|[-> ->]]]; auto.
Qed.

Lemma decision_members_names (label : string) :
  label ∉ decision_members.*1 ↔ label ≠ "pi" ∧ label ≠ "delta" ∧ label ≠ "un".
Proof.
  unfold decision_members. cbn [fmap list_fmap fst].
  rewrite !not_elem_of_cons. split; [by intros (? & ? & ? & _)|].
  intros (? & ? & ?). split_and!; try done. apply not_elem_of_nil.
Qed.

Lemma Case_by_members (c : Case) (p d r : fset) (v : pyval) :
  c = mkCase p d v r ↔
  decision c = v ∧ (∀ f, f ∈ pi_factors c ↔ f ∈ p)
  ∧ (∀ f, f ∈ delta_factors c ↔ f ∈ d) ∧ (∀ f, f ∈ reason c ↔ f ∈ r).
Proof.
  split; [by intros ->|]. destruct c as [p' d' v' r']. cbn.
  intros (-> & Hp & Hd & Hr). f_equal; by apply set_eq.
Qed.

(** C4. [Case.from_dict] fails exactly when the decision label is none of
    ["pi"], ["delta"], ["un"] (a [KeyError]) or some name of the reason,
    tagged with the decoded decision, is not a factor of the winning side
    (a [ValueError]), the winning side being the names of [pi] tagged [pi]
    when the decision is [pi] and the names of [delta] tagged [delta]
    otherwise. When it does not fail, the case returned has the decoded
    decision, and its [pi_factors], [delta_factors] and reason are exactly
    the names of the three lists, tagged [pi], [delta] and with the
    decision. *)
Theorem from_dict_spec (dic : case_dict) :
  let label := dic_decision dic in
  let decoded (m : decision_enum) : Prop :=
    (label = "pi" ∧ m = pi) ∨ (label = "delta" ∧ m = delta) ∨ (label = "un" ∧ m = un) in
  let on_winning_side (m : decision_enum) (f : Factor) : Prop :=
    match m with
    | pi => polarity f = VEnum pi ∧ name f ∈ dic_pi dic
    | _ => polarity f = VEnum delta ∧ name f ∈ dic_delta dic
    end in
  let bad_reason (m : decision_enum) : Prop :=
    ∃ n, n ∈ dic_reason dic ∧ ¬ on_winning_side m (mkFactor n (VEnum m)) in
  (is_raise (from_dict dic) ↔
     (label ≠ "pi" ∧ label ≠ "delta" ∧ label ≠ "un") ∨ ∃ m, decoded m ∧ bad_reason m)
  ∧ (from_dict dic = Raise KeyError ↔ label ≠ "pi" ∧ label ≠ "delta" ∧ label ≠ "un")
  ∧ (from_dict dic = Raise ValueError ↔ ∃ m, decoded m ∧ bad_reason m)
  ∧ (∀ c, from_dict dic = Ok c ↔
       ∃ m, decoded m ∧ ¬ bad_reason m ∧ decision c = VEnum m
            ∧ (∀ f, f ∈ pi_factors c ↔ polarity f = VEnum pi ∧ name f ∈ dic_pi dic)
            ∧ (∀ f, f ∈ delta_factors c ↔ polarity f = VEnum delta ∧ name f ∈ dic_delta dic)
            ∧ (∀ f, f ∈ reason c ↔ polarity f = VEnum m ∧ name f ∈ dic_reason dic)).
Proof.
  intros label decoded on_winning_side bad_reason.
  destruct (from_dict_cases dic) as (Hraise & Hkey & Hval & Hok).
  cbv zeta in Hraise, Hkey, Hval, Hok.
  assert (∀ m, (dic_decision dic, m) ∈ decision_members ↔ decoded m) as Hdec
    by (intros m; apply decision_members_decoded).
  assert (∀ m, ¬ factor_set m (dic_reason dic) ⊆ winning_factors dic m ↔ bad_reason m)
    as Hbad.
  { intros m. rewrite reason_not_included. unfold bad_reason, on_winning_side.
    by setoid_rewrite elem_of_winning_factors. }
  rewrite decision_members_names in Hraise, Hkey.
  setoid_rewrite Hdec in Hraise. setoid_rewrite Hdec in Hval. setoid_rewrite Hdec in Hok.
  setoid_rewrite Hbad in Hraise. setoid_rewrite Hbad in Hval. setoid_rewrite Hbad in Hok.
  split_and!; [done|done|done|].
  intros c. rewrite Hok. setoid_rewrite Case_by_members.
  setoid_rewrite elem_of_factor_set. done.
Qed.

(** With the label ["un"] the winning side of the code is [delta_factors],
    whose members are tagged [delta]: an undecided record is accepted with an
    empty reason and refused with any other. *)
Example from_dict_undecided :
  is_raise (from_dict (mkDict ["A"] ["B"] "un" [])) = False
  ∧ from_dict (mkDict ["A"] ["B"] "un" ["B"]) = Raise ValueError
  ∧ from_dict (mkDict ["A"] ["B"] "maybe" []) = Raise KeyError.
Proof. split_and!; by vm_compute. Qed.

(** A case has no relevant difference from itself. *)
Theorem relevant_diff_from_self (c : Case) : relevant_diff_from c c = ∅.
Proof.
  unfold relevant_diff_from, py_eqb.
  rewrite bool_decide_eq_true_2 by done. set_solver.
Qed.

(** ** The dictionaries *)

Section defaultdict_facts.
Context {K V : Type} `{EqDecision K} `{Countable V}.
Implicit Types (k : K) (x : V) (d : defaultdict K V).

Lemma dd_lookup_keys k d : is_Some (dd_lookup k d) ↔ k ∈ dd_keys d.
Proof.
  unfold dd_keys. induction d as [|[k' b] d IH]; simpl.
  - rewrite elem_of_nil. split; [by intros [? ?]|done].
  - rewrite elem_of_cons. destruct (decide (k = k')) as [->|Hne].
    + split; [by left|by eexists].
    + rewrite IH. naive_solver.
Qed.

Lemma dd_bucket_keys k x d : x ∈ dd_bucket k d → k ∈ dd_keys d.
Proof.
  unfold dd_bucket. intros Hx. apply dd_lookup_keys.
  destruct (dd_lookup k d); [by eexists|]. simpl in Hx. set_solver.
Qed.

Lemma dd_lookup_add k' k x d :
  dd_lookup k' (dd_add k x d)
  = if decide (k' = k) then Some ({[x]} ∪ dd_bucket k d) else dd_lookup k' d.
Proof.
  unfold dd_bucket. induction d as [|[k0 b] d IH]; simpl.
  - destruct (decide (k' = k)); [|done]. f_equal. set_solver.
  - destruct (decide (k = k0)) as [->|Hne]; simpl.
    + destruct (decide (k' = k0)); done.
    + rewrite IH. destruct (decide (k' = k0)) as [->|?]; [|done].
      by rewrite decide_False.
Qed.

Lemma dd_bucket_add k' k x d :
  dd_bucket k' (dd_add k x d)
  = if decide (k' = k) then {[x]} ∪ dd_bucket k d else dd_bucket k' d.
Proof.
  unfold dd_bucket at 1. rewrite dd_lookup_add.
  by destruct (decide (k' = k)).
Qed.

Lemma dd_keys_add k' k x d :
  k' ∈ dd_keys (dd_add k x d) ↔ k' = k ∨ k' ∈ dd_keys d.
Proof.
  rewrite <- !dd_lookup_keys, dd_lookup_add.
  destruct (decide (k' = k)) as [->|Hne]; [|naive_solver].
  split; [by left|by eexists].
Qed.

(** Adding an element that the bucket holds leaves the dictionary as it
    is. *)
Lemma dd_add_id k x d : x ∈ dd_bucket k d → dd_add k x d = d.
Proof.
  unfold dd_bucket. induction d as [|[k0 b] d IH]; simpl.
  - set_solver.
  - destruct (decide (k = k0)) as [->|Hne]; simpl.
    + intros Hx. do 2 f_equal. set_solver.
    + intros Hx. by rewrite IH.
Qed.

Lemma dd_getitem_bucket k d : (dd_getitem k d).1 = dd_bucket k d.
Proof. unfold dd_getitem, dd_bucket. by destruct (dd_lookup k d). Qed.

Lemma dd_lookup_app k d1 d2 :
  dd_lookup k (d1 ++ d2)
  = match dd_lookup k d1 with Some b => Some b | None => dd_lookup k d2 end.
Proof.
  induction d1 as [|[k0 b] d1 IH]; simpl; [done|].
  by destruct (decide (k = k0)).
Qed.

(** Reading a key leaves every bucket as it was. *)
Lemma dd_bucket_getitem k' k d :
  dd_bucket k' (dd_getitem k d).2 = dd_bucket k' d.
Proof.
  unfold dd_getitem. destruct (dd_lookup k d) eqn:E; simpl; [done|].
  unfold dd_bucket. rewrite dd_lookup_app.
  destruct (dd_lookup k' d) eqn:E'; [done|]. simpl.
  by destruct (decide (k' = k)).
Qed.

Lemma dd_keys_getitem k' k d :
  k' ∈ dd_keys (dd_getitem k d).2 ↔ k' = k ∨ k' ∈ dd_keys d.
Proof.
  unfold dd_getitem. destruct (dd_lookup k d) eqn:E; simpl.
  - split; [by right|]. intros [->|?]; [|done].
    apply dd_lookup_keys. by eexists.
  - unfold dd_keys. rewrite fmap_app, elem_of_app. simpl.
    rewrite list_elem_of_singleton. naive_solver.
Qed.

(** Reading a key that is present changes nothing. *)
Lemma dd_getitem_present k d : k ∈ dd_keys d → (dd_getitem k d).2 = d.
Proof.
  intros [b Hb]%dd_lookup_keys. unfold dd_getitem. by rewrite Hb.
Qed.

(** Reading a key that is absent appends an empty bucket. *)
Lemma dd_getitem_absent k d : k ∉ dd_keys d → (dd_getitem k d).2 = d ++ [(k, ∅)].
Proof.
  intros Hk. unfold dd_getitem. destruct (dd_lookup k d) eqn:E; [|done].
  destruct Hk. apply dd_lookup_keys. by eexists.
Qed.
End defaultdict_facts.

(** ** Monad and loop rules *)

Section monad_facts.
Context {A B : Type}.

Lemma bind_Ok (m : M A) (f : A → M B) s a s' :
  m s = (Ok a, s') → bind m f s = f a s'.
Proof. unfold bind. by intros ->. Qed.

Lemma bind_Raise (m : M A) (f : A → M B) s e s' :
  m s = (Raise e, s') → bind m f s = (Raise e, s').
Proof. unfold bind. by intros ->. Qed.
End monad_facts.

(** [hoare P m Q]: from a state in [P], the computation [m] ends, with a
    value or an exception, in a result and a state related by [Q]. *)
Definition hoare {A} (P : PriorityOrder → Prop) (m : M A)
    (Q : result A → PriorityOrder → Prop) : Prop :=
  ∀ s, P s → Q (m s).1 (m s).2.

(** [keeps I m]: the computation [m] maintains [I], also when it raises. *)
Definition keeps {A} (I : PriorityOrder → Prop) (m : M A) : Prop :=
  hoare I m (λ _, I).

Section keeps_rules.
Context (I : PriorityOrder → Prop).

Lemma keeps_ret {A} (a : A) : keeps I (ret a).
Proof. by intros s Hs. Qed.

Lemma keeps_lift {A} (r : result A) : keeps I (lift r).
Proof. by intros s Hs. Qed.

Lemma keeps_read {A} (f : PriorityOrder → result A) : keeps I (λ s, (f s, s)).
Proof. by intros s Hs. Qed.

Lemma keeps_bind {A B} (m : M A) (f : A → M B) :
  keeps I m → (∀ a, keeps I (f a)) → keeps I (bind m f).
Proof.
  intros Hm Hf s Hs. specialize (Hm s Hs). unfold bind.
  destruct (m s) as [[a|e] s']; simpl in *; [by apply Hf|done].
Qed.

Lemma keeps_set_iter_next r n : keeps I (set_iter_next r n).
Proof. intros s Hs. unfold set_iter_next. by case_decide. Qed.

Lemma keeps_dict_iter_next n : keeps I (dict_iter_next n).
Proof. intros s Hs. unfold dict_iter_next. by case_decide. Qed.

Lemma keeps_for_each {A Acc R} (next : M unit) (xs : list A)
    (body : A → Acc → M (step Acc R)) (acc : Acc) :
  keeps I next → (∀ x acc, keeps I (body x acc)) →
  keeps I (for_each next xs body acc).
Proof.
  intros Hnext Hbody. revert acc.
  induction xs as [|x xs IH]; intros acc; simpl.
  - apply keeps_bind; [done|]. intros _. apply keeps_ret.
  - apply keeps_bind; [done|]. intros _.
    apply keeps_bind; [done|]. intros [acc'|v]; [apply IH|apply keeps_ret].
Qed.

Lemma keeps_comprehension {A B} (f : A → M B) (xs : list A) :
  (∀ x, keeps I (f x)) → keeps I (comprehension f xs).
Proof.
  intros Hf. induction xs as [|x xs IH]; simpl; [apply keeps_ret|].
  apply keeps_bind; [done|]. intros y.
  apply keeps_bind; [done|]. intros ys. apply keeps_ret.
Qed.
End keeps_rules.

(** ** The state after an insertion *)

(** The index after [for factor in defeated: index[factor].add(defeated)]. *)
Definition index_add_all (defeated : fset) (factors : list Factor)
    (index : defaultdict Factor fset) : defaultdict Factor fset :=
  foldl (λ idx factor, dd_add factor defeated idx) index factors.

(** The state that [add_order_with_subsets reason defeated] leaves. *)
Definition add_order_state (reason defeated : fset) (s : PriorityOrder) : PriorityOrder :=
  mkPO (dd_add defeated reason (order s))
       (index_add_all defeated (elements defeated) (defeated_factor_index s)).

(** The state that [add_pair_as_appropriate r1 r2] leaves. *)
Definition add_pair_state (r1 r2 : fset) (s : PriorityOrder) : PriorityOrder :=
  if bool_decide (r1 = r2) then s
  else if bool_decide (r1 ⊆ r2) then add_order_state r2 r1 s
  else if bool_decide (r2 ⊆ r1) then add_order_state r1 r2 s
  else s.

Lemma add_order_with_subsets_run reason defeated s :
  add_order_with_subsets reason defeated s = (Ok (), add_order_state reason defeated s).
Proof.
  unfold add_order_with_subsets, add_order_state, index_add_all.
  unfold bind at 1. generalize (dd_add defeated reason (order s)) as o.
  generalize (defeated_factor_index s) as idx.
  generalize (elements defeated) as fs.
  induction fs as [|f fs IH]; intros idx o; [done|].
  specialize (IH (dd_add f defeated idx) o).
  unfold bind in *. simpl in *. exact IH.
Qed.

Lemma add_pair_as_appropriate_run r1 r2 s :
  add_pair_as_appropriate r1 r2 s = (Ok (), add_pair_state r1 r2 s).
Proof.
  unfold add_pair_as_appropriate, add_pair_state.
  repeat case_bool_decide; try done; apply add_order_with_subsets_run.
Qed.

Lemma index_add_all_bucket defeated fs idx f :
  dd_bucket f (index_add_all defeated fs idx)
  = if decide (f ∈ fs) then {[defeated]} ∪ dd_bucket f idx else dd_bucket f idx.
Proof.
  unfold index_add_all. revert idx.
  induction fs as [|f0 fs IH]; intros idx; cbn [foldl].
  - rewrite decide_False; [done|]. apply not_elem_of_nil.
  - rewrite IH, dd_bucket_add.
    destruct (decide (f = f0)) as [->|Hne].
    + rewrite (decide_True (P := f0 ∈ f0 :: fs)); [|by left].
      case_decide; set_solver.
    + destruct (decide (f ∈ fs)) as [Hin|Hnin].
      * rewrite decide_True; [done|by right].
      * rewrite decide_False; [done|]. by intros [?|?]%elem_of_cons.
Qed.

Lemma index_add_all_keys defeated fs idx f :
  f ∈ dd_keys (index_add_all defeated fs idx) ↔ f ∈ fs ∨ f ∈ dd_keys idx.
Proof.
  unfold index_add_all. revert idx.
  induction fs as [|f0 fs IH]; intros idx; simpl.
  - rewrite elem_of_nil. naive_solver.
  - rewrite IH, dd_keys_add, elem_of_cons. naive_solver.
Qed.

Lemma order_add_order_state reason defeated s k :
  dd_bucket k (order (add_order_state reason defeated s))
  = if decide (k = defeated) then {[reason]} ∪ dd_bucket defeated (order s)
    else dd_bucket k (order s).
Proof. unfold add_order_state. simpl. apply dd_bucket_add. Qed.

Lemma index_add_order_state reason defeated s f :
  dd_bucket f (defeated_factor_index (add_order_state reason defeated s))
  = if decide (f ∈ defeated) then {[defeated]} ∪ dd_bucket f (defeated_factor_index s)
    else dd_bucket f (defeated_factor_index s).
Proof.
  unfold add_order_state. cbn [defeated_factor_index].
  rewrite index_add_all_bucket.
  destruct (decide (f ∈ elements defeated)) as [Hin|Hnin];
    destruct (decide (f ∈ defeated)) as [Hin'|Hnin']; try done;
    rewrite elem_of_elements in *; done.
Qed.

(** ** [unsafe_add_case] runs to completion *)

(** The state after [for d in ds: add_pair_as_appropriate(reason, d)]. *)
Definition add_pairs_state (reason : fset) (ds : list fset) (s : PriorityOrder) : PriorityOrder :=
  foldl (λ s d, add_pair_state reason d s) s ds.

(** The state after one round of the loop of [unsafe_add_case], for the
    key [r]. *)
Definition visit_key_state (reason r : fset) (s : PriorityOrder) : PriorityOrder :=
  let s1 := add_pair_state reason r s in
  add_pairs_state reason (elements (dd_bucket r (order s1))) s1.

(** The state that [unsafe_add_case case] leaves. *)
Definition unsafe_add_case_state (case : Case) (s : PriorityOrder) : PriorityOrder :=
  let s1 := add_order_state (reason case) (defeated case) s in
  foldl (λ s r, visit_key_state (reason case) r s) s1 (dd_keys (order s1)).

(** The state that [unsafe_add_cases cases] leaves. *)
Definition unsafe_add_cases_state (cases : list Case) (s : PriorityOrder) : PriorityOrder :=
  foldl (λ s c, unsafe_add_case_state c s) s cases.

Section unsafe_add_case_run.
Context (X : fset).

(** A round of the inner loop does not touch the set it iterates over: the
    only buckets written are that of [X], which receives [d], already a
    member when it is the iterated bucket, and that of [d], which receives
    [X], put there by the call made just before the loop. *)
Lemma add_pair_state_keeps_bucket d r s :
  d ∈ dd_bucket r (order s) →
  (r ⊆ X → r ≠ X → X ∈ dd_bucket r (order s)) →
  dd_bucket r (order (add_pair_state X d s)) = dd_bucket r (order s).
Proof.
  intros Hd HX. unfold add_pair_state.
  case_bool_decide as Heq; [done|].
  case_bool_decide as Hsub1.
  - rewrite order_add_order_state. case_decide as Hr; [|done].
    subst r. set_solver.
  - case_bool_decide as Hsub2; [|done].
    rewrite order_add_order_state. case_decide as Hr; [|done].
    subst r. assert (X ∈ dd_bucket d (order s)) by (apply HX; [done|congruence]).
    set_solver.
Qed.

Lemma add_pair_state_records r s :
  r ⊆ X → r ≠ X → X ∈ dd_bucket r (order (add_pair_state X r s)).
Proof.
  intros Hsub Hne. unfold add_pair_state.
  rewrite bool_decide_eq_false_2 by congruence.
  rewrite (bool_decide_eq_false_2 (X ⊆ r)).
  - rewrite bool_decide_eq_true_2 by done.
    rewrite order_add_order_state, decide_True by done. set_solver.
  - intros Hsub'. apply Hne. set_solver.
Qed.

Definition inner_body (d : fset) (_ : unit) : M (step unit unit) :=
  add_pair_as_appropriate X d ;;; ret (Next ()).

Lemma inner_loop_run r B0 xs s :
  dd_bucket r (order s) = B0 →
  (∀ d, d ∈ xs → d ∈ B0) →
  (r ⊆ X → r ≠ X → X ∈ B0) →
  for_each (set_iter_next r (size B0)) xs inner_body () s
    = (Ok (Next ()), add_pairs_state X xs s)
  ∧ dd_bucket r (order (add_pairs_state X xs s)) = B0.
Proof.
  intros HB Hxs HX. revert s HB.
  induction xs as [|x xs IH]; intros s HB.
  - split; [|done]. simpl. unfold bind, set_iter_next.
    rewrite HB, decide_True; done.
  - assert (dd_bucket r (order (add_pair_state X x s)) = B0) as HB'.
    { rewrite add_pair_state_keeps_bucket; [done| |by rewrite HB].
      rewrite HB. apply Hxs. by left. }
    destruct (IH (λ d Hd, Hxs d (list_elem_of_further _ _ _ Hd)) _ HB') as [IH1 IH2].
    split; [|done].
    cbn [for_each]. unfold bind at 1. unfold set_iter_next at 1.
    rewrite HB, decide_True by done.
    unfold inner_body at 1.
    unfold bind at 1. unfold bind at 1.
    rewrite add_pair_as_appropriate_run. cbn [ret]. exact IH1.
Qed.

Definition outer_body : fset * gset fset → unit → M (step unit unit) :=
  λ '(r, _) (_ : unit),
    add_pair_as_appropriate X r ;;;
    ds <- (λ s, (Ok (dd_bucket r (order s)), s)) ;;
    for_each (set_iter_next r (size ds)) (elements ds) inner_body ().

Lemma outer_body_run r b s :
  outer_body (r, b) () s = (Ok (Next ()), visit_key_state X r s).
Proof.
  unfold outer_body, visit_key_state. unfold bind at 1.
  rewrite add_pair_as_appropriate_run. unfold bind at 1.
  set (s1 := add_pair_state X r s).
  apply (inner_loop_run r (dd_bucket r (order s1)) _ s1); [done| |].
  - intros d. by rewrite elem_of_elements.
  - apply add_pair_state_records.
Qed.

Lemma outer_loop_run items s :
  for_each list_iter_next items outer_body () s
    = (Ok (Next ()), foldl (λ s r, visit_key_state X r s) s items.*1).
Proof.
  revert s. induction items as [|[r b] items IH]; intros s; [done|].
  cbn [for_each]. unfold bind at 1. cbn [list_iter_next ret].
  unfold bind at 1. rewrite outer_body_run. apply IH.
Qed.
End unsafe_add_case_run.

Lemma unsafe_add_case_run case s :
  unsafe_add_case case s = (Ok (), unsafe_add_case_state case s).
Proof.
  unfold unsafe_add_case, unsafe_add_case_state.
  unfold bind at 1. rewrite add_order_with_subsets_run.
  unfold bind at 1. unfold bind at 1.
  set (s1 := add_order_state (reason case) (defeated case) s).
  change (for_each list_iter_next (order s1) _ () s1)
    with (for_each list_iter_next (order s1) (outer_body (reason case)) () s1).
  by rewrite outer_loop_run.
Qed.

Lemma unsafe_add_cases_run cases s :
  unsafe_add_cases cases s = (Ok (), unsafe_add_cases_state cases s).
Proof.
  unfold unsafe_add_cases, unsafe_add_cases_state.
  assert (∀ s, for_each (R := unit) list_iter_next cases
                 (λ c (_ : unit), unsafe_add_case c ;;; ret (Next ())) () s
               = (Ok (Next ()), foldl (λ s c, unsafe_add_case_state c s) s cases)) as Hloop.
  { clear s. induction cases as [|c cases IH]; intros s; [done|].
    cbn [for_each]. unfold bind at 1. cbn [list_iter_next ret].
    unfold bind at 1. unfold bind at 1. rewrite unsafe_add_case_run.
    apply IH. }
  unfold bind. by rewrite Hloop.
Qed.

(** [unsafe_add_case] returns from every state: neither of its loops
    resizes the set it iterates over. *)
Theorem unsafe_add_case_returns (case : Case) (s : PriorityOrder) :
  (unsafe_add_case case s).1 = Ok ().
Proof. by rewrite unsafe_add_case_run. Qed.

(** ** The stored relation grows and follows inclusion *)

(** [outweighs s R D]: the order of [s] records that the reason [R]
    outweighs the defeated set [D]. *)
Definition outweighs (s : PriorityOrder) (R D : fset) : Prop :=
  R ∈ dd_bucket D (order s).

(** The transitive closure of the stored relation. *)
Definition beats (s : PriorityOrder) : relation fset := tc (outweighs s).

(** [R] is stored as a winning reason. *)
Definition recorded (s : PriorityOrder) (R : fset) : Prop := ∃ D, outweighs s R D.

Definition grows (s s' : PriorityOrder) : Prop :=
  ∀ R D, outweighs s R D → outweighs s' R D.

(** The two sets are ordered by the stored relation when one includes the
    other. *)
Definition pair_ordered (s : PriorityOrder) (X Y : fset) : Prop :=
  (X ⊆ Y → X ≠ Y → outweighs s Y X) ∧ (Y ⊆ X → X ≠ Y → outweighs s X Y).

#[global] Instance grows_preorder : PreOrder grows.
Proof. split; [by intros s R D|]. intros s1 s2 s3 H12 H23 R D H. eauto. Qed.

#[global] Instance Case_eq_dec : EqDecision Case.
Proof. solve_decision. Defined.

Section growth.
Implicit Types (s : PriorityOrder) (X Y R D r : fset).

Lemma grows_pair_ordered s s' X Y : grows s s' → pair_ordered s X Y → pair_ordered s' X Y.
Proof. intros Hg [H1 H2]. split; intros ? ?; apply Hg; eauto. Qed.

Lemma grows_recorded s s' R : grows s s' → recorded s R → recorded s' R.
Proof. intros Hg [D HD]. exists D. by apply Hg. Qed.

Lemma add_order_state_grows R D s : grows s (add_order_state R D s).
Proof.
  intros R' D' H. unfold outweighs in *. rewrite order_add_order_state.
  case_decide; [subst; set_solver|done].
Qed.

Lemma add_order_state_outweighs R D s : outweighs (add_order_state R D s) R D.
Proof.
  unfold outweighs. rewrite order_add_order_state, decide_True by done.
  set_solver.
Qed.

Lemma add_pair_state_grows X Y s : grows s (add_pair_state X Y s).
Proof.
  unfold add_pair_state.
  repeat case_bool_decide; try reflexivity; apply add_order_state_grows.
Qed.

Lemma add_pair_state_ordered X Y s : pair_ordered (add_pair_state X Y s) X Y.
Proof.
  unfold add_pair_state, pair_ordered.
  case_bool_decide as Heq; [by split|].
  case_bool_decide as H1.
  { split; [intros _ _; apply add_order_state_outweighs|].
    intros H2 _. destruct Heq. set_solver. }
  case_bool_decide as H2; [|by split].
  split; [done|]. intros _ _. apply add_order_state_outweighs.
Qed.

Lemma add_pairs_state_grows X ds s : grows s (add_pairs_state X ds s).
Proof.
  unfold add_pairs_state. revert s.
  induction ds as [|d ds IH]; intros s; simpl; [reflexivity|].
  etrans; [apply (add_pair_state_grows X d)|apply IH].
Qed.

Lemma add_pairs_state_ordered X Y ds s :
  Y ∈ ds → pair_ordered (add_pairs_state X ds s) X Y.
Proof.
  revert s. induction ds as [|d ds IH]; intros s; [by intros ?%elem_of_nil|].
  intros [->|Hin]%elem_of_cons.
  - eapply grows_pair_ordered; [|apply add_pair_state_ordered].
    apply (add_pairs_state_grows X ds).
  - apply (IH _ Hin).
Qed.

Lemma visit_key_state_grows X r s : grows s (visit_key_state X r s).
Proof.
  unfold visit_key_state.
  etrans; [apply (add_pair_state_grows X r)|apply add_pairs_state_grows].
Qed.

(** Visiting the key [r] compares the new reason with every member of the
    bucket of [r]. *)
Lemma visit_key_state_ordered X Y r s :
  outweighs s Y r → pair_ordered (visit_key_state X r s) X Y.
Proof.
  intros HY. unfold visit_key_state. apply add_pairs_state_ordered.
  apply elem_of_elements. by apply (add_pair_state_grows X r s).
Qed.

Lemma visit_keys_grows X rs s : grows s (foldl (λ s r, visit_key_state X r s) s rs).
Proof.
  revert s. induction rs as [|r rs IH]; intros s; simpl; [reflexivity|].
  etrans; [apply (visit_key_state_grows X r)|apply IH].
Qed.

Lemma visit_keys_ordered X Y r rs s :
  r ∈ rs → outweighs s Y r →
  pair_ordered (foldl (λ s r, visit_key_state X r s) s rs) X Y.
Proof.
  revert s. induction rs as [|r0 rs IH]; intros s; [by intros ?%elem_of_nil|].
  intros [->|Hin]%elem_of_cons HY; simpl.
  - eapply grows_pair_ordered; [apply visit_keys_grows|].
    by apply visit_key_state_ordered.
  - apply (IH _ Hin). by apply (visit_key_state_grows X r0 s).
Qed.

Lemma unsafe_add_case_state_grows c s : grows s (unsafe_add_case_state c s).
Proof.
  unfold unsafe_add_case_state.
  etrans; [apply (add_order_state_grows (reason c) (defeated c))|].
  apply visit_keys_grows.
Qed.

Lemma unsafe_add_case_state_recorded c s :
  outweighs (unsafe_add_case_state c s) (reason c) (defeated c).
Proof.
  unfold unsafe_add_case_state. apply visit_keys_grows.
  apply add_order_state_outweighs.
Qed.

(** Folding a case in compares its reason with every reason stored
    before. *)
Lemma unsafe_add_case_state_ordered c Y s :
  recorded s Y → pair_ordered (unsafe_add_case_state c s) (reason c) Y.
Proof.
  intros [D HD]. unfold unsafe_add_case_state.
  set (s1 := add_order_state (reason c) (defeated c) s).
  assert (outweighs s1 Y D) as HD1 by by apply add_order_state_grows.
  apply (visit_keys_ordered _ _ D); [|done].
  by apply (dd_bucket_keys D Y).
Qed.

Lemma unsafe_add_cases_state_grows cs s : grows s (unsafe_add_cases_state cs s).
Proof.
  unfold unsafe_add_cases_state. revert s.
  induction cs as [|c cs IH]; intros s; simpl; [reflexivity|].
  etrans; [apply (unsafe_add_case_state_grows c)|apply IH].
Qed.

Lemma unsafe_add_cases_state_ordered A B cs s :
  A ⊆ B → A ≠ B →
  outweighs s B A
  ∨ ((recorded s A ∨ A ∈ reason <$> cs) ∧ (recorded s B ∨ B ∈ reason <$> cs)
     ∧ (A ∈ reason <$> cs ∨ B ∈ reason <$> cs)) →
  outweighs (unsafe_add_cases_state cs s) B A.
Proof.
  intros Hsub Hne. unfold unsafe_add_cases_state. revert s.
  induction cs as [|c cs IH]; intros s; simpl.
  { rewrite !elem_of_nil. naive_solver. }
  intros Hs. apply IH. clear IH.
  pose proof (unsafe_add_case_state_grows c s) as Hg.
  pose proof (unsafe_add_case_state_recorded c s) as Hrec.
  pose proof (λ Y, unsafe_add_case_state_ordered c Y s) as Hord.
  set (s1 := unsafe_add_case_state c s) in *.
  destruct Hs as [HG|(HA & HB & HAB)]; [left; by apply Hg|].
  rewrite elem_of_cons in HA, HB. rewrite (elem_of_cons _ A), (elem_of_cons _ B) in HAB.
  destruct (decide (reason c = A)) as [EA|NA].
  - destruct HB as [HB|[HB|HB]].
    + left. destruct (Hord B HB) as [H1 _]. rewrite EA in H1. by apply H1.
    + congruence.
    + right. split_and!; [left; exists (defeated c); by rewrite <- EA|by right|by right].
  - destruct (decide (reason c = B)) as [EB|NB].
    + destruct HA as [HA|[HA|HA]].
      * left. destruct (Hord A HA) as [_ H2]. rewrite EB in H2. apply H2; [done|].
        intros E. apply Hne. by rewrite E.
      * congruence.
      * right. split_and!; [by right|left; exists (defeated c); by rewrite <- EB|by left].
    + right. split_and!.
      * destruct HA as [HA|[HA|HA]]; [left; by eapply grows_recorded|congruence|by right].
      * destruct HB as [HB|[HB|HB]]; [left; by eapply grows_recorded|congruence|by right].
      * destruct HAB as [[?|?]|[?|?]]; [congruence|by left|congruence|by right].
Qed.
End growth.

(** C5. When the reasons [A ⊂ B] have both been folded in by
    [unsafe_add_case], in either order and with any other cases around them,
    from any stored order, the run does not raise and [B] is stored as
    outweighing [A]; hence whatever [A] beats, directly or through the
    transitive closure of the stored relation, [B] beats in that closure. *)
Theorem monotone_strength (cases : list Case) (cA cB : Case) (s : PriorityOrder) :
  cA ∈ cases → cB ∈ cases → reason cA ⊂ reason cB →
  (unsafe_add_cases cases s).1 = Ok ()
  ∧ outweighs (unsafe_add_cases cases s).2 (reason cB) (reason cA)
  ∧ (∀ D, outweighs (unsafe_add_cases cases s).2 (reason cA) D →
          beats (unsafe_add_cases cases s).2 (reason cB) D)
  ∧ (∀ D, beats (unsafe_add_cases cases s).2 (reason cA) D →
          beats (unsafe_add_cases cases s).2 (reason cB) D).
Proof.
  intros HA HB [Hsub Hnsub]. rewrite unsafe_add_cases_run. cbn [fst snd].
  assert (outweighs (unsafe_add_cases_state cases s) (reason cB) (reason cA)) as HBA.
  { apply unsafe_add_cases_state_ordered; [done| |].
    { intros E. apply Hnsub. by rewrite E. }
    right. split_and!; [right|right|left]; by apply list_elem_of_fmap_2. }
  split_and!; [done|done| |].
  - intros D HD. eapply tc_l; [exact HBA|by apply tc_once].
  - intros D HD. by eapply tc_l.
Qed.

Definition case_A : Case :=
  mkCase {[mkFactor "A" (VEnum pi)]} ∅ (VEnum pi) {[mkFactor "A" (VEnum pi)]}.

Definition case_AB : Case :=
  mkCase {[mkFactor "A" (VEnum pi); mkFactor "B" (VEnum pi)]} ∅ (VEnum pi)
         {[mkFactor "A" (VEnum pi); mkFactor "B" (VEnum pi)]}.

Lemma monotone_strength_witness :
  (unsafe_add_cases [case_AB; case_A] PriorityOrder_init).1 = Ok ()
  ∧ outweighs (unsafe_add_cases [case_AB; case_A] PriorityOrder_init).2
      (reason case_AB) (reason case_A)
  ∧ (∀ D, outweighs (unsafe_add_cases [case_AB; case_A] PriorityOrder_init).2 (reason case_A) D →
          beats (unsafe_add_cases [case_AB; case_A] PriorityOrder_init).2 (reason case_AB) D)
  ∧ (∀ D, beats (unsafe_add_cases [case_AB; case_A] PriorityOrder_init).2 (reason case_A) D →
          beats (unsafe_add_cases [case_AB; case_A] PriorityOrder_init).2 (reason case_AB) D).
Proof.
  apply (monotone_strength [case_AB; case_A] case_A case_AB PriorityOrder_init).
  - apply (bool_decide_unpack _). vm_compute. exact I.
  - apply (bool_decide_unpack _). vm_compute. exact I.
  - apply (bool_decide_unpack _). vm_compute. exact I.
Defined.

(** ** What [is_consistent] computes and what it writes *)

(** The dictionary after the keys [ks] have been read in turn. *)
Definition touch_all {K} `{EqDecision K} (ks : list K)
    (d : defaultdict K fset) : defaultdict K fset :=
  foldl (λ d k, (dd_getitem k d).2) d ks.

Section touch_all.
Context {K : Type} `{EqDecision K}.
Implicit Types (k : K) (d : defaultdict K fset).

Lemma touch_all_bucket ks d k : dd_bucket k (touch_all ks d) = dd_bucket k d.
Proof.
  unfold touch_all. revert d. induction ks as [|k0 ks IH]; intros d; [done|].
  simpl. by rewrite IH, dd_bucket_getitem.
Qed.

Lemma touch_all_keys ks d k :
  k ∈ dd_keys (touch_all ks d) ↔ k ∈ ks ∨ k ∈ dd_keys d.
Proof.
  unfold touch_all. revert d. induction ks as [|k0 ks IH]; intros d; simpl.
  - rewrite elem_of_nil. naive_solver.
  - rewrite IH, dd_keys_getitem, elem_of_cons. naive_solver.
Qed.

Lemma touch_all_present ks d : (∀ k, k ∈ ks → k ∈ dd_keys d) → touch_all ks d = d.
Proof.
  unfold touch_all. induction ks as [|k0 ks IH]; intros Hks; [done|].
  simpl. rewrite dd_getitem_present by (apply Hks; by left).
  apply IH. intros k Hk. apply Hks. by right.
Qed.

(** Reading keys appends empty buckets, for keys that were absent, and
    does nothing else. *)
Lemma touch_all_appends ks d :
  ∃ new, touch_all ks d = d ++ ((λ k, (k, ∅)) <$> new)
         ∧ ∀ k, k ∈ new → k ∈ ks ∧ k ∉ dd_keys d.
Proof.
  unfold touch_all. revert d. induction ks as [|k0 ks IH]; intros d; simpl.
  - exists []. split; [by rewrite app_nil_r|]. by intros k ?%elem_of_nil.
  - destruct (decide (k0 ∈ dd_keys d)) as [Hin|Hnin].
    + rewrite dd_getitem_present by done.
      destruct (IH d) as (new & -> & Hnew). exists new. split; [done|].
      intros k Hk. destruct (Hnew k Hk). split; [by right|done].
    + rewrite dd_getitem_absent by done.
      destruct (IH (d ++ [(k0, ∅)])) as (new & -> & Hnew).
      exists (k0 :: new). split; [by rewrite <- app_assoc|].
      intros k [->|Hk]%elem_of_cons; [split; [by left|done]|].
      destruct (Hnew k Hk) as [? Hn]. split; [by right|].
      intros Hd. apply Hn. unfold dd_keys. rewrite fmap_app, elem_of_app. by left.
Qed.
End touch_all.

Lemma index_getitem_run f s :
  index_getitem f s
  = (Ok (dd_bucket f (defeated_factor_index s)),
     mkPO (order s) (dd_getitem f (defeated_factor_index s)).2).
Proof.
  unfold index_getitem. rewrite <- dd_getitem_bucket.
  by destruct (dd_getitem f (defeated_factor_index s)).
Qed.

Lemma order_getitem_run k s :
  order_getitem k s
  = (Ok (dd_bucket k (order s)),
     mkPO (dd_getitem k (order s)).2 (defeated_factor_index s)).
Proof.
  unfold order_getitem. rewrite <- dd_getitem_bucket.
  by destruct (dd_getitem k (order s)).
Qed.

Lemma comprehension_index_getitem fs s :
  comprehension index_getitem fs s
  = (Ok ((λ f, dd_bucket f (defeated_factor_index s)) <$> fs),
     mkPO (order s) (touch_all fs (defeated_factor_index s))).
Proof.
  revert s. induction fs as [|f fs IH]; intros s; [by destruct s|].
  cbn [comprehension]. unfold bind at 1. rewrite index_getitem_run.
  unfold bind at 1. rewrite IH. unfold ret. cbn [order defeated_factor_index].
  rewrite fmap_cons. do 3 f_equal.
  apply list_fmap_ext. intros _ f' _. apply dd_bucket_getitem.
Qed.

Lemma comprehension_order_getitem ks s :
  comprehension order_getitem ks s
  = (Ok ((λ k, dd_bucket k (order s)) <$> ks),
     mkPO (touch_all ks (order s)) (defeated_factor_index s)).
Proof.
  revert s. induction ks as [|k ks IH]; intros s; [by destruct s|].
  cbn [comprehension]. unfold bind at 1. rewrite order_getitem_run.
  unfold bind at 1. rewrite IH. unfold ret. cbn [order defeated_factor_index].
  rewrite fmap_cons. do 3 f_equal.
  apply list_fmap_ext. intros _ k' _. apply dd_bucket_getitem.
Qed.

(** The [supersets] of [is_consistent]: the intersection of the index
    buckets of the factors of [new_reason]. *)
Definition supersets_of (new_reason : fset) (s : PriorityOrder) : result (gset fset) :=
  frozenset_intersection
    (sorted_by_len
       (elements (list_to_set (C := gset (gset fset))
          ((λ f, dd_bucket f (defeated_factor_index s)) <$> elements new_reason)))).

(** The answer of [is_consistent] when the intersection is [supersets]. *)
Definition no_reason_within (new_defeated : fset) (supersets : gset fset)
    (s : PriorityOrder) : bool :=
  negb (existsb (any_subset new_defeated)
          ((λ k, dd_bucket k (order s)) <$> elements supersets)).

Lemma is_consistent_run new_reason new_defeated s :
  is_consistent new_reason new_defeated s
  = match supersets_of new_reason s with
    | Ok supersets =>
        (Ok (no_reason_within new_defeated supersets s),
         mkPO (touch_all (elements supersets) (order s))
              (touch_all (elements new_reason) (defeated_factor_index s)))
    | Raise e =>
        (Raise e,
         mkPO (order s) (touch_all (elements new_reason) (defeated_factor_index s)))
    end.
Proof.
  unfold is_consistent, supersets_of, no_reason_within.
  unfold bind at 1. rewrite comprehension_index_getitem.
  unfold bind at 1. unfold lift at 1.
  destruct (frozenset_intersection _) as [supersets|e]; [|done].
  unfold bind at 1. rewrite comprehension_order_getitem. done.
Qed.

Lemma elem_of_foldl_intersection (x : gset fset) (rest : list (gset fset)) (y : fset) :
  y ∈ foldl (∩) x rest ↔ ∀ z, z ∈ x :: rest → y ∈ z.
Proof.
  revert x. induction rest as [|z0 rest IH]; intros x; simpl.
  - split; [by intros Hy z ->%list_elem_of_singleton|].
    intros Hy. apply Hy. by left.
  - rewrite IH. split.
    + intros Hy z [->|[->|Hz]%elem_of_cons]%elem_of_cons.
      * specialize (Hy (x ∩ z0)). set_solver.
      * specialize (Hy (x ∩ z0)). set_solver.
      * apply Hy. by right.
    + intros Hy z [->|Hz]%elem_of_cons.
      * apply elem_of_intersection. split; apply Hy; [by left|right; by left].
      * apply Hy. right. by right.
Qed.

Lemma supersets_of_empty s : supersets_of ∅ s = Raise TypeError.
Proof. unfold supersets_of. by rewrite elements_empty. Qed.

(** With a factor in [new_reason] the intersection is defined, and holds the
    defeated sets indexed under every factor of [new_reason]. *)
Lemma supersets_of_nonempty new_reason s :
  new_reason ≠ ∅ →
  ∃ supersets, supersets_of new_reason s = Ok supersets
    ∧ ∀ x, x ∈ supersets ↔
           ∀ f, f ∈ new_reason → x ∈ dd_bucket f (defeated_factor_index s).
Proof.
  intros [f0 Hf0]%set_choose_L. unfold supersets_of, sorted_by_len.
  set (l := (λ f, dd_bucket f (defeated_factor_index s)) <$> elements new_reason).
  assert (∀ z, z ∈ merge_sort (λ x y, size x ≤ size y)
                     (H := λ x y, decide (size x ≤ size y))
                     (elements (list_to_set (C := gset (gset fset)) l))
               ↔ ∃ f, f ∈ new_reason ∧ z = dd_bucket f (defeated_factor_index s)) as Hmem.
  { intros z. rewrite merge_sort_Permutation, elem_of_elements, elem_of_list_to_set.
    unfold l. rewrite list_elem_of_fmap. setoid_rewrite elem_of_elements. naive_solver. }
  destruct (merge_sort _ _) as [|x rest].
  - exfalso. eapply not_elem_of_nil, Hmem. eauto.
  - eexists. split; [done|]. intros y. rewrite elem_of_foldl_intersection.
    setoid_rewrite Hmem. naive_solver.
Qed.

(** The answer is [False] exactly when some defeated set of the
    intersection has a stored reason included in [new_defeated]. *)
Lemma no_reason_within_false new_defeated supersets s :
  no_reason_within new_defeated supersets s = false ↔
  ∃ S R, S ∈ supersets ∧ outweighs s R S ∧ R ⊆ new_defeated.
Proof.
  unfold no_reason_within, any_subset, outweighs.
  rewrite negb_false_iff, existsb_exists. split.
  - intros (b & Hb & Hex). apply list_elem_of_In, list_elem_of_fmap in Hb as (S & -> & HS).
    apply existsb_exists in Hex as (R & HR & Hsub).
    exists S, R. rewrite <- elem_of_elements, <- (elem_of_elements (dd_bucket _ _)).
    apply bool_decide_eq_true_1 in Hsub.
    split_and!; [done|by apply list_elem_of_In|done].
  - intros (S & R & HS & HR & Hsub). exists (dd_bucket S (order s)). split.
    + apply list_elem_of_In, list_elem_of_fmap. exists S. by rewrite elem_of_elements.
    + apply existsb_exists. exists R. split.
      * by apply list_elem_of_In, elem_of_elements.
      * by apply bool_decide_eq_true_2.
Qed.

(** [is_consistent] with a non-empty [new_reason] returns, and returns
    [False] exactly when some stored pair has a defeated set indexed under
    every factor of [new_reason] and a reason included in [new_defeated]. *)
Lemma is_consistent_spec new_reason new_defeated s :
  new_reason ≠ ∅ →
  ∃ b, (is_consistent new_reason new_defeated s).1 = Ok b
    ∧ (b = false ↔
       ∃ S R, (∀ f, f ∈ new_reason → S ∈ dd_bucket f (defeated_factor_index s))
              ∧ outweighs s R S ∧ R ⊆ new_defeated).
Proof.
  intros Hne. rewrite is_consistent_run.
  destruct (supersets_of_nonempty new_reason s Hne) as (supersets & -> & Hsup).
  eexists. split; [done|]. rewrite no_reason_within_false.
  by setoid_rewrite Hsup.
Qed.

Lemma is_consistent_spec_witness :
  ∃ b, (is_consistent {[mkFactor "A" (VEnum pi)]} ∅ PriorityOrder_init).1 = Ok b
    ∧ (b = false ↔
       ∃ S R, (∀ f, f ∈ ({[mkFactor "A" (VEnum pi)]} : fset) →
                    S ∈ dd_bucket f (defeated_factor_index PriorityOrder_init))
              ∧ outweighs PriorityOrder_init R S ∧ R ⊆ ∅).
Proof.
  apply (is_consistent_spec {[mkFactor "A" (VEnum pi)]} ∅ PriorityOrder_init).
  apply (bool_decide_unpack _). vm_compute. exact I.
Defined.

(** C2 fails on the code: with an empty [new_reason] the call raises
    [TypeError], from every state and for every [new_defeated], and leaves
    the state as it was. *)
Theorem is_consistent_empty_reason_raises (s : PriorityOrder) (new_defeated : fset) :
  is_consistent ∅ new_defeated s = (Raise TypeError, s).
Proof.
  rewrite is_consistent_run, supersets_of_empty, elements_empty. by destruct s.
Qed.

(** ** The order and its index *)

(** Every key of the order is indexed under each of its factors, and the
    index holds nothing else. *)
Definition index_sync (s : PriorityOrder) : Prop :=
  (∀ d f, d ∈ dd_keys (order s) → f ∈ d → d ∈ dd_bucket f (defeated_factor_index s))
  ∧ (∀ f S, S ∈ dd_bucket f (defeated_factor_index s) → f ∈ S ∧ S ∈ dd_keys (order s)).

Section index_sync.
Implicit Types (s : PriorityOrder) (R D : fset).

Lemma index_sync_init : index_sync PriorityOrder_init.
Proof.
  split; [by intros d f ?%elem_of_nil|].
  intros f S HS. unfold dd_bucket in HS. simpl in HS. set_solver.
Qed.

Lemma add_order_state_sync R D s : index_sync s → index_sync (add_order_state R D s).
Proof.
  intros [H1 H2]. split.
  - intros d f Hd Hf. rewrite index_add_order_state.
    unfold add_order_state in Hd. cbn [order] in Hd.
    apply dd_keys_add in Hd as [->|Hd].
    + rewrite decide_True by done. set_solver.
    + specialize (H1 d f Hd Hf). case_decide; set_solver.
  - intros f S HS. rewrite index_add_order_state in HS.
    unfold add_order_state. cbn [order]. rewrite dd_keys_add.
    case_decide as Hf.
    + apply elem_of_union in HS as [->%elem_of_singleton|HS]; [by auto|].
      destruct (H2 f S HS). auto.
    + destruct (H2 f S HS). auto.
Qed.

Lemma add_pair_state_sync R D s : index_sync s → index_sync (add_pair_state R D s).
Proof.
  intros Hs. unfold add_pair_state.
  repeat case_bool_decide; try done; by apply add_order_state_sync.
Qed.

Lemma keeps_add_order_with_subsets R D : keeps index_sync (add_order_with_subsets R D).
Proof.
  intros s Hs. rewrite add_order_with_subsets_run. by apply add_order_state_sync.
Qed.

Lemma keeps_add_pair_as_appropriate R D : keeps index_sync (add_pair_as_appropriate R D).
Proof.
  intros s Hs. rewrite add_pair_as_appropriate_run. by apply add_pair_state_sync.
Qed.

Lemma keeps_unsafe_add_case c : keeps index_sync (unsafe_add_case c).
Proof.
  unfold unsafe_add_case.
  apply keeps_bind; [apply keeps_add_order_with_subsets|]. intros _.
  apply keeps_bind; [apply keeps_read|]. intros items.
  apply keeps_bind; [|intros _; apply keeps_ret].
  apply keeps_for_each; [apply keeps_ret|]. intros [r b] [].
  apply keeps_bind; [apply keeps_add_pair_as_appropriate|]. intros _.
  apply keeps_bind; [apply keeps_read|]. intros ds.
  apply keeps_for_each; [apply keeps_set_iter_next|]. intros d [].
  apply keeps_bind; [apply keeps_add_pair_as_appropriate|]. intros _.
  apply keeps_ret.
Qed.

Lemma keeps_unsafe_add_cases cs : keeps index_sync (unsafe_add_cases cs).
Proof.
  unfold unsafe_add_cases.
  apply keeps_bind; [|intros _; apply keeps_ret].
  apply keeps_for_each; [apply keeps_ret|]. intros c [].
  apply keeps_bind; [apply keeps_unsafe_add_case|]. intros _. apply keeps_ret.
Qed.

(** On a synchronised state the defeated sets that [is_consistent] looks
    up in the order are keys of it: the order is not written. *)
Lemma is_consistent_order_sync new_reason new_defeated s :
  index_sync s → order (is_consistent new_reason new_defeated s).2 = order s.
Proof.
  intros [_ H2]. rewrite is_consistent_run.
  destruct (decide (new_reason = ∅)) as [->|Hne].
  { by rewrite supersets_of_empty. }
  destruct (supersets_of_nonempty new_reason s Hne) as (supersets & -> & Hsup).
  cbn [snd order]. apply touch_all_present.
  intros S HS%elem_of_elements.
  apply set_choose_L in Hne as [f Hf].
  eapply H2, Hsup; eauto.
Qed.

Lemma is_consistent_buckets new_reason new_defeated s :
  (∀ D, dd_bucket D (order (is_consistent new_reason new_defeated s).2)
        = dd_bucket D (order s))
  ∧ (∀ f, dd_bucket f (defeated_factor_index (is_consistent new_reason new_defeated s).2)
          = dd_bucket f (defeated_factor_index s)).
Proof.
  rewrite is_consistent_run.
  destruct (supersets_of new_reason s); cbn [snd order defeated_factor_index];
    split; intros; by rewrite ?touch_all_bucket.
Qed.

Lemma keeps_is_consistent new_reason new_defeated :
  keeps index_sync (is_consistent new_reason new_defeated).
Proof.
  intros s Hs.
  pose proof (is_consistent_order_sync new_reason new_defeated s Hs) as Ho.
  destruct (is_consistent_buckets new_reason new_defeated s) as [_ Hi].
  destruct Hs as [H1 H2]. split.
  - intros d f. rewrite Ho, Hi. apply H1.
  - intros f S. rewrite Ho, Hi. apply H2.
Qed.

Lemma keeps_is_cb_consistent : keeps index_sync is_cb_consistent.
Proof.
  unfold is_cb_consistent.
  apply keeps_bind; [apply keeps_read|]. intros items.
  apply keeps_bind; [|intros []; intros; apply keeps_ret].
  apply keeps_for_each; [apply keeps_dict_iter_next|]. intros [D b] [].
  apply keeps_bind; [apply keeps_read|]. intros reason_set.
  apply keeps_for_each; [apply keeps_set_iter_next|]. intros R [].
  apply keeps_bind; [apply keeps_is_consistent|]. intros [|]; apply keeps_ret.
Qed.

Lemma keeps_count_inconsistencies : keeps index_sync count_inconsistencies.
Proof.
  unfold count_inconsistencies.
  apply keeps_bind; [apply keeps_read|]. intros items.
  apply keeps_bind; [|intros []; intros; apply keeps_ret].
  apply keeps_for_each; [apply keeps_dict_iter_next|]. intros [R b] count.
  apply keeps_bind; [apply keeps_read|]. intros defeated_set.
  apply keeps_for_each; [apply keeps_set_iter_next|]. intros D count'.
  apply keeps_bind; [apply keeps_is_consistent|]. intros [|]; apply keeps_ret.
Qed.

Lemma run_op_sync o s : index_sync s → index_sync (run_op o s).
Proof.
  intros Hs. destruct o; cbn [run_op].
  - by apply keeps_is_consistent.
  - by apply keeps_is_cb_consistent.
  - by apply keeps_count_inconsistencies.
  - by apply keeps_is_consistent.
  - by apply keeps_add_pair_as_appropriate.
  - by apply keeps_unsafe_add_cases.
  - by apply keeps_unsafe_add_case.
  - by apply keeps_add_order_with_subsets.
  - done.
  - done.
Qed.

Lemma run_ops_sync ops : index_sync (run_ops ops).
Proof.
  unfold run_ops. induction ops as [|o ops IH] using rev_ind.
  - apply index_sync_init.
  - rewrite foldl_app. cbn [foldl]. by apply run_op_sync.
Qed.
End index_sync.

(** C7. After any sequence of calls of the methods of a new
    [PriorityOrder], returned or raised, every key [d] of the order is a
    member of the index bucket of each factor of [d], and every set in the
    index bucket of a factor [f] contains [f] and is a key of the order. *)
Theorem order_index_synchronised (ops : list op) :
  (∀ d f, d ∈ dd_keys (order (run_ops ops)) → f ∈ d →
          d ∈ dd_bucket f (defeated_factor_index (run_ops ops)))
  ∧ (∀ f S, S ∈ dd_bucket f (defeated_factor_index (run_ops ops)) →
            f ∈ S ∧ S ∈ dd_keys (order (run_ops ops))).
Proof. apply run_ops_sync. Qed.

Lemma touch_all_appends_exactly {K} `{EqDecision K} (ks : list K) (d : defaultdict K fset) :
  ∃ new, touch_all ks d = d ++ ((λ k, (k, ∅)) <$> new)
         ∧ NoDup new
         ∧ ∀ k, k ∈ new ↔ k ∈ ks ∧ k ∉ dd_keys d.
Proof.
  unfold touch_all. revert d. induction ks as [|k0 ks IH]; intros d; cbn [foldl].
  - exists []. split_and!; [by rewrite app_nil_r|constructor|].
    intros k. rewrite !elem_of_nil. naive_solver.
  - destruct (decide (k0 ∈ dd_keys d)) as [Hin|Hnin].
    + rewrite dd_getitem_present by done.
      destruct (IH d) as (new & -> & Hnd & Hnew). exists new. split_and!; [done|done|].
      intros k. rewrite Hnew, elem_of_cons. split; [naive_solver|].
      intros [[->|?] ?]; [done|by split].
    + rewrite dd_getitem_absent by done.
      destruct (IH (d ++ [(k0, ∅)])) as (new & -> & Hnd & Hnew).
      assert (∀ k, k ∈ dd_keys (d ++ [(k0, ∅)]) ↔ k ∈ dd_keys d ∨ k = k0) as Hkeys.
      { intros k. unfold dd_keys. rewrite fmap_app, elem_of_app. cbn.
        by rewrite list_elem_of_singleton. }
      exists (k0 :: new). split_and!.
      * by rewrite <- app_assoc.
      * constructor; [|done]. rewrite Hnew, Hkeys. naive_solver.
      * intros k. rewrite !elem_of_cons, Hnew, Hkeys.
        destruct (decide (k = k0)) as [->|Hne]; naive_solver.
Qed.

(** C6, as the code has it. [is_consistent], returning or raising, leaves
    every bucket of the order and of the index with the members it had. What
    it writes are empty buckets, appended once each for the keys it reads and
    does not find: in the index, the factors of [new_reason] that were not
    keys of it; in the order, when [new_reason] is not empty, the defeated
    sets found in the index bucket of every factor of [new_reason] (the
    intersection) that were not keys of it, and nothing when [new_reason] is
    empty. On a state reached by calls of the methods from a new
    [PriorityOrder] the order is left exactly as it was. *)
Theorem is_consistent_frame (new_reason new_defeated : fset) :
  (∀ s, let s' := (is_consistent new_reason new_defeated s).2 in
     (∀ D, dd_bucket D (order s') = dd_bucket D (order s))
     ∧ (∀ f, dd_bucket f (defeated_factor_index s') = dd_bucket f (defeated_factor_index s))
     ∧ (∃ new, order s' = order s ++ ((λ k, (k, ∅)) <$> new)
               ∧ NoDup new
               ∧ ∀ k, k ∈ new ↔
                      ((k ∉ dd_keys (order s)) ∧ (new_reason ≠ ∅)
                       ∧ (∀ f, f ∈ new_reason → k ∈ dd_bucket f (defeated_factor_index s))))
     ∧ (∃ new, defeated_factor_index s'
               = defeated_factor_index s ++ ((λ k, (k, ∅)) <$> new)
               ∧ NoDup new
               ∧ ∀ f, f ∈ new ↔ (f ∈ new_reason ∧ f ∉ dd_keys (defeated_factor_index s))))
  ∧ (∀ ops, order (is_consistent new_reason new_defeated (run_ops ops)).2
            = order (run_ops ops)).
Proof.
  split.
  - intros s s'. subst s'.
    destruct (is_consistent_buckets new_reason new_defeated s) as [Ho Hi].
    split_and!; [done|done| |]; rewrite is_consistent_run.
    + destruct (decide (new_reason = ∅)) as [->|Hne].
      { rewrite supersets_of_empty. cbn [snd order]. exists [].
        split_and!; [by rewrite app_nil_r|constructor|].
        intros k. rewrite elem_of_nil. naive_solver. }
      destruct (supersets_of_nonempty new_reason s Hne) as (supersets & -> & Hsup).
      cbn [snd order].
      destruct (touch_all_appends_exactly (elements supersets) (order s))
        as (new & -> & Hnd & Hnew).
      exists new. split_and!; [done|done|].
      intros k. rewrite Hnew, elem_of_elements, Hsup. naive_solver.
    + destruct (touch_all_appends_exactly (elements new_reason) (defeated_factor_index s))
        as (new & Hrun & Hnd & Hnew).
      exists new. split_and!.
      * by destruct (supersets_of new_reason s); cbn [snd defeated_factor_index].
      * done.
      * intros f. by rewrite Hnew, elem_of_elements.
  - intros ops. apply is_consistent_order_sync, run_ops_sync.
Qed.

(** C6 fails on the code: on a new [PriorityOrder] the call
    [is_consistent({A}, {})] returns [True] and leaves a key in the index,
    which had none. *)
Lemma is_consistent_frame_counterexample :
  (is_consistent {[mkFactor "A" (VEnum pi)]} ∅ PriorityOrder_init).1 = Ok true
  ∧ dd_keys (defeated_factor_index PriorityOrder_init) = []
  ∧ dd_keys (defeated_factor_index
               (is_consistent {[mkFactor "A" (VEnum pi)]} ∅ PriorityOrder_init).2)
    = [mkFactor "A" (VEnum pi)]
  ∧ (is_consistent {[mkFactor "A" (VEnum pi)]} ∅ PriorityOrder_init).2 ≠ PriorityOrder_init.
Proof.
  split; [vm_compute; reflexivity|].
  split; [reflexivity|].
  split; [vm_compute; reflexivity|].
  intros E. apply (f_equal (λ s, length (defeated_factor_index s))) in E.
  vm_compute in E. discriminate E.
Qed.

(** ** The scenario of two cases *)

Section scenario.
Context (A B C : Factor).

(** Case1: [pi_factors = {A, B}], no [delta_factors], decided for [pi]
    with reason [{A}]. *)
Definition Case1 : Case := mkCase {[A; B]} ∅ (VEnum pi) {[A]}.

(** Case2: no [pi_factors], [delta_factors = {A, C}], decided for [delta]
    with reason [{A, C}]. *)
Definition Case2 : Case := mkCase ∅ {[A; C]} (VEnum delta) {[A; C]}.

(** Folding Case1 into a new order stores one pair, [{A}] over the empty
    set, and indexes nothing, the defeated set having no factor. *)
Lemma unsafe_add_case_Case1 :
  unsafe_add_case Case1 PriorityOrder_init
  = (Ok (), mkPO [(∅, {[ {[A]} ]})] []).
Proof.
  rewrite unsafe_add_case_run. f_equal.
  unfold unsafe_add_case_state, Case1. cbn [reason].
  change (defeated (mkCase {[A; B]} ∅ (VEnum pi) {[A]})) with (∅ : fset).
  assert (add_order_state {[A]} ∅ PriorityOrder_init
          = mkPO [(∅, {[ {[A]} ]})] []) as Hs1.
  { unfold add_order_state. by rewrite elements_empty. }
  rewrite Hs1. cbn [order dd_keys fmap list_fmap fst foldl].
  unfold visit_key_state.
  assert (add_pair_state {[A]} ∅ (mkPO [(∅, {[ {[A]} ]})] [])
          = mkPO [(∅, {[ {[A]} ]})] []) as Hs2.
  { unfold add_pair_state.
    rewrite (bool_decide_eq_false_2 ({[A]} = ∅)) by set_solver.
    rewrite (bool_decide_eq_false_2 ({[A]} ⊆ ∅)) by set_solver.
    rewrite (bool_decide_eq_true_2 (∅ ⊆ {[A]})) by set_solver.
    unfold add_order_state. rewrite elements_empty. cbn [order index_add_all foldl].
    rewrite dd_add_id; [done|].
    unfold dd_bucket. cbn [dd_lookup]. rewrite decide_True by done.
    cbn [default]. set_solver. }
  rewrite Hs2. cbn [order].
  assert (dd_bucket (K := fset) ∅ [(∅, {[ {[A]} ]})] = {[ {[A]} ]}) as ->.
  { unfold dd_bucket. cbn [dd_lookup]. by rewrite decide_True. }
  rewrite elements_singleton. unfold add_pairs_state. cbn [foldl].
  unfold add_pair_state. by rewrite bool_decide_eq_true_2.
Qed.
End scenario.

(** C1, as the code has it. Whatever the factors [A], [B], [C] are, after
    Case1 has been folded into a new [PriorityOrder] by [unsafe_add_case],
    [is_consistent(Case2.reason, Case2.defeated())] returns [True]: Case1
    defeats the empty set, so that no defeated set is indexed under [A]. *)
Theorem scenario_is_consistent (A B C : Factor) :
  (unsafe_add_case (Case1 A B) ;;;
   is_consistent (reason (Case2 A C)) (defeated (Case2 A C))) PriorityOrder_init
  = (Ok true, mkPO [(∅, {[ {[A]} ]})] (touch_all (elements ({[A; C]} : fset)) [])).
Proof.
  unfold bind. rewrite unsafe_add_case_Case1.
  set (s := mkPO [(∅, {[ {[A]} ]})] []).
  assert (reason (Case2 A C) ≠ ∅) as Hne by (unfold Case2; cbn [reason]; set_solver).
  rewrite is_consistent_run.
  destruct (supersets_of_nonempty _ s Hne) as (supersets & -> & Hsup).
  assert (supersets = ∅) as ->.
  { apply set_eq. intros S. rewrite Hsup. split; [|set_solver].
    intros HS. specialize (HS A). unfold Case2 in HS. cbn [reason] in HS.
    unfold s, dd_bucket in HS. cbn in HS. set_solver. }
  unfold no_reason_within. rewrite elements_empty. done.
Qed.

(** The records of the scenario as [Case.from_dict] reads them. *)
Definition Case1_dict : case_dict := mkDict ["A"; "B"] [] "pi" ["A"].

Definition Case2_dict : case_dict := mkDict [] ["A"; "C"] "delta" ["A"; "C"].

(** C1 fails on the code: with the two cases built by [Case.from_dict] the
    check returns [True], not [False]. *)
Lemma scenario_counterexample :
  ((c1 <- lift (from_dict Case1_dict) ;;
    c2 <- lift (from_dict Case2_dict) ;;
    unsafe_add_case c1 ;;;
    is_consistent (reason c2) (defeated c2)) PriorityOrder_init).1 = Ok true
  ∧ ((c1 <- lift (from_dict Case1_dict) ;;
      c2 <- lift (from_dict Case2_dict) ;;
      unsafe_add_case c1 ;;;
      is_consistent (reason c2) (defeated c2)) PriorityOrder_init).1 ≠ Ok false.
Proof. split; [by vm_compute|]. vm_compute. discriminate. Qed.

(** ** Counting inconsistencies *)

(** The count as the documentation of [count_inconsistencies] words it: the
    traversal of [is_cb_consistent], which asks [is_consistent(reason,
    defeated)] for the key [defeated] and each [reason] of its bucket, with a
    counter in place of the early return. *)
Definition count_inconsistent_pairs : M nat :=
  items <- (λ s, (Ok (order s), s)) ;;
  r <- for_each (R := nat) (dict_iter_next (length items)) items
        (λ '(defeated, _) (count : nat),
           reason_set <- (λ s, (Ok (dd_bucket defeated (order s)), s)) ;;
           for_each (set_iter_next defeated (size reason_set)) (elements reason_set)
             (λ reason (count : nat),
                b <- is_consistent reason defeated ;;
                if negb b then ret (Next (count + 1)) else ret (Next count))
             count) 0 ;;
  match r with
  | Next count => ret count
  | Return n => ret n
  end.

(** One case: [pi] wins with reason [{A}] over the [delta] factor [B]. *)
Definition case_A_over_B : case_dict := mkDict ["A"] ["B"] "pi" ["A"].

(** C3 fails on the code: [count_inconsistencies] passes the key as
    [new_reason] and the member of its bucket as [new_defeated], the other
    way round from [is_cb_consistent]. With the single case above stored,
    [is_cb_consistent] returns [True] and no stored pair is inconsistent, yet
    [count_inconsistencies] returns 1. *)
Theorem count_inconsistencies_swapped :
  ((c <- lift (from_dict case_A_over_B) ;; unsafe_add_case c ;;;
    is_cb_consistent) PriorityOrder_init).1 = Ok true
  ∧ ((c <- lift (from_dict case_A_over_B) ;; unsafe_add_case c ;;;
      count_inconsistent_pairs) PriorityOrder_init).1 = Ok 0
  ∧ ((c <- lift (from_dict case_A_over_B) ;; unsafe_add_case c ;;;
      count_inconsistencies) PriorityOrder_init).1 = Ok 1.
Proof. split_and!; by vm_compute. Qed.

(** ** Entries are added, never removed *)

(** The state after a sequence of calls on a [PriorityOrder] in state [s]. *)
Definition run_ops_from (s : PriorityOrder) (ops : list op) : PriorityOrder :=
  foldl (λ s o, run_op o s) s ops.

(** [extends s s']: every key and every member of a bucket of [s], in the
    order and in the index, is still there in [s']. *)
Definition extends (s s' : PriorityOrder) : Prop :=
  (∀ D, dd_bucket D (order s) ⊆ dd_bucket D (order s'))
  ∧ (∀ f, dd_bucket f (defeated_factor_index s) ⊆ dd_bucket f (defeated_factor_index s'))
  ∧ (∀ D, D ∈ dd_keys (order s) → D ∈ dd_keys (order s'))
  ∧ (∀ f, f ∈ dd_keys (defeated_factor_index s) → f ∈ dd_keys (defeated_factor_index s')).

#[global] Instance extends_preorder : PreOrder extends.
Proof.
  split.
  - intros s. by split_and!.
  - intros s1 s2 s3 (A1 & B1 & C1 & D1) (A2 & B2 & C2 & D2). split_and!.
    + intros D. etrans; [apply A1|apply A2].
    + intros f. etrans; [apply B1|apply B2].
    + eauto.
    + eauto.
Qed.

Lemma keeps_step {A} (Rel : relation PriorityOrder) `{!PreOrder Rel} (m : M A) s0 :
  (∀ s, Rel s (m s).2) → keeps (Rel s0) m.
Proof. intros Hm s Hs. by etrans. Qed.

Lemma add_order_state_extends R D s : extends s (add_order_state R D s).
Proof.
  split_and!.
  - intros D'. rewrite order_add_order_state. case_decide; [subst|]; set_solver.
  - intros f. rewrite index_add_order_state. case_decide; set_solver.
  - intros D' HD'. unfold add_order_state. cbn [order]. apply dd_keys_add. by right.
  - intros f Hf. unfold add_order_state. cbn [defeated_factor_index].
    apply index_add_all_keys. by right.
Qed.

Lemma is_consistent_extends new_reason new_defeated s :
  extends s (is_consistent new_reason new_defeated s).2.
Proof.
  destruct (is_consistent_buckets new_reason new_defeated s) as [Ho Hi].
  split_and!.
  - intros D. by rewrite Ho.
  - intros f. by rewrite Hi.
  - intros D HD. rewrite is_consistent_run.
    destruct (supersets_of new_reason s); cbn [snd order]; [|done].
    apply touch_all_keys. by right.
  - intros f Hf. rewrite is_consistent_run.
    destruct (supersets_of new_reason s); cbn [snd defeated_factor_index];
      apply touch_all_keys; by right.
Qed.

Section keeps_methods.
Context (I : PriorityOrder → Prop).
Context (Hadd : ∀ R D, keeps I (add_order_with_subsets R D)).
Context (Hcons : ∀ r d, keeps I (is_consistent r d)).

Lemma keeps_add_pair_as_appropriate_gen r1 r2 : keeps I (add_pair_as_appropriate r1 r2).
Proof.
  unfold add_pair_as_appropriate.
  repeat case_bool_decide; try apply keeps_ret; apply Hadd.
Qed.

Lemma keeps_unsafe_add_case_gen c : keeps I (unsafe_add_case c).
Proof.
  unfold unsafe_add_case.
  apply keeps_bind; [apply Hadd|]. intros _.
  apply keeps_bind; [apply keeps_read|]. intros items.
  apply keeps_bind; [|intros _; apply keeps_ret].
  apply keeps_for_each; [apply keeps_ret|]. intros [r b] [].
  apply keeps_bind; [apply keeps_add_pair_as_appropriate_gen|]. intros _.
  apply keeps_bind; [apply keeps_read|]. intros ds.
  apply keeps_for_each; [apply keeps_set_iter_next|]. intros d [].
  apply keeps_bind; [apply keeps_add_pair_as_appropriate_gen|]. intros _.
  apply keeps_ret.
Qed.

Lemma keeps_unsafe_add_cases_gen cs : keeps I (unsafe_add_cases cs).
Proof.
  unfold unsafe_add_cases.
  apply keeps_bind; [|intros _; apply keeps_ret].
  apply keeps_for_each; [apply keeps_ret|]. intros c [].
  apply keeps_bind; [apply keeps_unsafe_add_case_gen|]. intros _. apply keeps_ret.
Qed.

Lemma keeps_is_cb_consistent_gen : keeps I is_cb_consistent.
Proof.
  unfold is_cb_consistent.
  apply keeps_bind; [apply keeps_read|]. intros items.
  apply keeps_bind; [|intros []; intros; apply keeps_ret].
  apply keeps_for_each; [apply keeps_dict_iter_next|]. intros [D b] [].
  apply keeps_bind; [apply keeps_read|]. intros reason_set.
  apply keeps_for_each; [apply keeps_set_iter_next|]. intros R [].
  apply keeps_bind; [apply Hcons|]. intros [|]; apply keeps_ret.
Qed.

Lemma keeps_count_inconsistencies_gen : keeps I count_inconsistencies.
Proof.
  unfold count_inconsistencies.
  apply keeps_bind; [apply keeps_read|]. intros items.
  apply keeps_bind; [|intros []; intros; apply keeps_ret].
  apply keeps_for_each; [apply keeps_dict_iter_next|]. intros [R b] count.
  apply keeps_bind; [apply keeps_read|]. intros defeated_set.
  apply keeps_for_each; [apply keeps_set_iter_next|]. intros D count'.
  apply keeps_bind; [apply Hcons|]. intros [|]; apply keeps_ret.
Qed.

Lemma keeps_run_op o s : I s → I (run_op o s).
Proof.
  intros Hs. destruct o; cbn [run_op].
  - by apply Hcons.
  - by apply keeps_is_cb_consistent_gen.
  - by apply keeps_count_inconsistencies_gen.
  - by apply Hcons.
  - by apply keeps_add_pair_as_appropriate_gen.
  - by apply keeps_unsafe_add_cases_gen.
  - by apply keeps_unsafe_add_case_gen.
  - by apply Hadd.
  - done.
  - done.
Qed.

Lemma keeps_run_ops_from ops s : I s → I (run_ops_from s ops).
Proof.
  unfold run_ops_from. revert s.
  induction ops as [|o ops IH]; intros s Hs; [done|].
  cbn [foldl]. by apply IH, keeps_run_op.
Qed.
End keeps_methods.

Lemma run_ops_from_extends ops s : extends s (run_ops_from s ops).
Proof.
  apply (keeps_run_ops_from (extends s)); [| |reflexivity].
  - intros R D. apply keeps_step; [apply _|]. intros s'.
    rewrite add_order_with_subsets_run. apply add_order_state_extends.
  - intros r d. apply keeps_step; [apply _|]. intros s'.
    apply is_consistent_extends.
Qed.

(** Whatever methods are called on a [PriorityOrder], returning or raising,
    every stored pair stays stored, every defeated set stays in the index
    buckets it was in, and every key stays a key of its dictionary: nothing
    is ever removed. *)
Theorem entries_never_removed (s : PriorityOrder) (ops : list op) :
  (∀ R D, outweighs s R D → outweighs (run_ops_from s ops) R D)
  ∧ (∀ f S, S ∈ dd_bucket f (defeated_factor_index s) →
            S ∈ dd_bucket f (defeated_factor_index (run_ops_from s ops)))
  ∧ (∀ D, D ∈ dd_keys (order s) → D ∈ dd_keys (order (run_ops_from s ops)))
  ∧ (∀ f, f ∈ dd_keys (defeated_factor_index s) →
          f ∈ dd_keys (defeated_factor_index (run_ops_from s ops))).
Proof.
  destruct (run_ops_from_extends ops s) as (Ho & Hi & Hko & Hki).
  split_and!; [|by intros f S; apply Hi|done|done].
  intros R D. unfold outweighs. apply Ho.
Qed.

(** ** Insertions *)

Lemma index_add_all_id D fs idx :
  (∀ f, f ∈ fs → D ∈ dd_bucket f idx) → index_add_all D fs idx = idx.
Proof.
  unfold index_add_all. induction fs as [|f fs IH]; intros Hfs; [done|].
  cbn [foldl]. rewrite dd_add_id by (apply Hfs; by left).
  apply IH. intros f' Hf'. apply Hfs. by right.
Qed.

(** A pair that is stored and indexed is inserted again without effect. *)
Lemma add_order_state_id R D s :
  outweighs s R D → (∀ f, f ∈ D → D ∈ dd_bucket f (defeated_factor_index s)) →
  add_order_state R D s = s.
Proof.
  intros HR HD. unfold add_order_state.
  rewrite dd_add_id by done.
  rewrite index_add_all_id; [by destruct s|].
  intros f Hf%elem_of_elements. by apply HD.
Qed.

Lemma add_order_state_stored R D s :
  outweighs (add_order_state R D s) R D
  ∧ ∀ f, f ∈ D → D ∈ dd_bucket f (defeated_factor_index (add_order_state R D s)).
Proof.
  split; [apply add_order_state_outweighs|].
  intros f Hf. rewrite index_add_order_state, decide_True by done. set_solver.
Qed.

(** [add_order_with_subsets(reason, defeated)] returns; it adds [reason] to
    the bucket of [defeated] in the order and [defeated] to the index bucket
    of each of its factors, leaves every other bucket as it was, and a
    second identical call changes nothing. *)
Theorem add_order_with_subsets_effect (reason defeated : fset) (s : PriorityOrder) :
  (add_order_with_subsets reason defeated s).1 = Ok ()
  ∧ (∀ D, dd_bucket D (order (add_order_with_subsets reason defeated s).2)
          = if decide (D = defeated) then {[reason]} ∪ dd_bucket defeated (order s)
            else dd_bucket D (order s))
  ∧ (∀ f, dd_bucket f (defeated_factor_index (add_order_with_subsets reason defeated s).2)
          = if decide (f ∈ defeated)
            then {[defeated]} ∪ dd_bucket f (defeated_factor_index s)
            else dd_bucket f (defeated_factor_index s))
  ∧ add_order_with_subsets reason defeated (add_order_with_subsets reason defeated s).2
    = (Ok (), (add_order_with_subsets reason defeated s).2).
Proof.
  rewrite !add_order_with_subsets_run. cbn [fst snd].
  split_and!; [done|apply order_add_order_state|apply index_add_order_state|].
  f_equal.
  destruct (add_order_state_stored reason defeated s). by apply add_order_state_id.
Qed.

Lemma add_pair_state_sym r1 r2 s : add_pair_state r1 r2 s = add_pair_state r2 r1 s.
Proof.
  unfold add_pair_state.
  destruct (decide (r1 = r2)) as [->|Hne]; [done|].
  rewrite (bool_decide_eq_false_2 (r1 = r2)), (bool_decide_eq_false_2 (r2 = r1))
    by congruence.
  destruct (decide (r1 ⊆ r2)) as [H12|H12], (decide (r2 ⊆ r1)) as [H21|H21].
  - destruct Hne. set_solver.
  - by rewrite (bool_decide_eq_true_2 (r1 ⊆ r2)), (bool_decide_eq_false_2 (r2 ⊆ r1)).
  - by rewrite (bool_decide_eq_false_2 (r1 ⊆ r2)), (bool_decide_eq_true_2 (r2 ⊆ r1)).
  - by rewrite (bool_decide_eq_false_2 (r1 ⊆ r2)), (bool_decide_eq_false_2 (r2 ⊆ r1)).
Qed.

(** [add_pair_as_appropriate] does not depend on the order of its two
    arguments: it records the strict superset as outweighing the subset,
    and does nothing when the two sets are equal or when neither includes
    the other. *)
Theorem add_pair_as_appropriate_symmetric (r1 r2 : fset) (s : PriorityOrder) :
  add_pair_as_appropriate r1 r2 s = add_pair_as_appropriate r2 r1 s
  ∧ (r1 ⊂ r2 → add_pair_as_appropriate r1 r2 s = add_order_with_subsets r2 r1 s)
  ∧ (r1 = r2 ∨ (¬ r1 ⊆ r2 ∧ ¬ r2 ⊆ r1) → add_pair_as_appropriate r1 r2 s = (Ok (), s)).
Proof.
  split_and!.
  - rewrite !add_pair_as_appropriate_run. f_equal. apply add_pair_state_sym.
  - intros [Hsub Hnsub]. unfold add_pair_as_appropriate.
    rewrite bool_decide_eq_false_2 by (intros ->; by apply Hnsub).
    by rewrite bool_decide_eq_true_2.
  - intros [->|[H12 H21]]; unfold add_pair_as_appropriate.
    + by rewrite bool_decide_eq_true_2.
    + rewrite bool_decide_eq_false_2 by (intros ->; by apply H12).
      by rewrite !bool_decide_eq_false_2.
Qed.

(** ** The answer of [is_consistent] *)

(** The stored pairs that contradict "[new_reason] outweighs
    [new_defeated]" in the eyes of [is_consistent]: a defeated set indexed
    under every factor of [new_reason], with a stored reason included in
    [new_defeated]. *)
Definition contradicted_by_index (s : PriorityOrder) (new_reason new_defeated : fset) : Prop :=
  ∃ S R, (∀ f, f ∈ new_reason → S ∈ dd_bucket f (defeated_factor_index s))
         ∧ outweighs s R S ∧ R ⊆ new_defeated.

(** The same read off the order alone: a stored pair whose defeated set
    includes [new_reason] and whose reason is included in [new_defeated]. *)
Definition contradicted (s : PriorityOrder) (new_reason new_defeated : fset) : Prop :=
  ∃ S R, outweighs s R S ∧ new_reason ⊆ S ∧ R ⊆ new_defeated.

Lemma is_consistent_result new_reason new_defeated s :
  ((is_consistent new_reason new_defeated s).1 = Raise TypeError ↔ new_reason = ∅)
  ∧ ((is_consistent new_reason new_defeated s).1 = Ok false ↔
       new_reason ≠ ∅ ∧ contradicted_by_index s new_reason new_defeated)
  ∧ ((is_consistent new_reason new_defeated s).1 = Ok true ↔
       new_reason ≠ ∅ ∧ ¬ contradicted_by_index s new_reason new_defeated).
Proof.
  rewrite is_consistent_run. unfold contradicted_by_index.
  destruct (decide (new_reason = ∅)) as [->|Hne].
  { rewrite supersets_of_empty. cbn [fst]. naive_solver. }
  destruct (supersets_of_nonempty new_reason s Hne) as (supersets & -> & Hsup).
  cbn [fst].
  pose proof (no_reason_within_false new_defeated supersets s) as Hf.
  setoid_rewrite Hsup in Hf.
  destruct (no_reason_within new_defeated supersets s).
  - split_and!; [naive_solver|naive_solver|].
    split; [|done]. intros _. split; [done|]. intros Hc. by apply Hf in Hc.
  - split_and!; [naive_solver| |naive_solver].
    split; [|done]. intros _. split; [done|]. by apply Hf.
Qed.

Lemma contradicted_sync s new_reason new_defeated :
  index_sync s → new_reason ≠ ∅ →
  contradicted_by_index s new_reason new_defeated ↔ contradicted s new_reason new_defeated.
Proof.
  intros [H1 H2] [f0 Hf0]%set_choose_L. split.
  - intros (S & R & HS & HR & Hsub). exists S, R. split_and!; [done| |done].
    intros f Hf. by apply (H2 f S), HS.
  - intros (S & R & HR & HS & Hsub). exists S, R. split_and!; [|done|done].
    intros f Hf. apply H1; [|by apply HS]. by apply (dd_bucket_keys S R).
Qed.

(** On every state reached by method calls from a new [PriorityOrder],
    [is_consistent(new_reason, new_defeated)] raises [TypeError] exactly
    when [new_reason] is empty, and otherwise returns [False] exactly when
    some stored pair has a defeated set that includes [new_reason] and a
    reason included in [new_defeated]. *)
Theorem is_consistent_reachable (ops : list op) (new_reason new_defeated : fset) :
  ((is_consistent new_reason new_defeated (run_ops ops)).1 = Raise TypeError ↔
     new_reason = ∅)
  ∧ ((is_consistent new_reason new_defeated (run_ops ops)).1 = Ok false ↔
       new_reason ≠ ∅ ∧ contradicted (run_ops ops) new_reason new_defeated)
  ∧ ((is_consistent new_reason new_defeated (run_ops ops)).1 = Ok true ↔
       new_reason ≠ ∅ ∧ ¬ contradicted (run_ops ops) new_reason new_defeated).
Proof.
  destruct (is_consistent_result new_reason new_defeated (run_ops ops)) as (HT & HF & HO).
  pose proof (λ Hne, contradicted_sync (run_ops ops) new_reason new_defeated
                       (run_ops_sync ops) Hne) as Hc.
  split_and!; [done| |].
  - rewrite HF. split; intros [Hne H]; (split; [done|]); by apply (Hc Hne).
  - rewrite HO. split; intros [Hne H]; (split; [done|]); intros H'; apply H; by apply (Hc Hne).
Qed.

Lemma contradicted_by_index_extends s s' new_reason new_defeated :
  extends s s' → contradicted_by_index s new_reason new_defeated →
  contradicted_by_index s' new_reason new_defeated.
Proof.
  intros (Ho & Hi & _) (S & R & HS & HR & Hsub). exists S, R. split_and!; [|by apply Ho|done].
  intros f Hf. by apply Hi, HS.
Qed.

(** An inconsistency is never repaired: once [is_consistent(new_reason,
    new_defeated)] has returned [False], it returns [False] after any
    further calls of the methods. *)
Theorem inconsistency_persists (s : PriorityOrder) (ops : list op)
    (new_reason new_defeated : fset) :
  (is_consistent new_reason new_defeated s).1 = Ok false →
  (is_consistent new_reason new_defeated (run_ops_from s ops)).1 = Ok false.
Proof.
  intros [Hne Hc]%is_consistent_result. apply is_consistent_result. split; [done|].
  eapply contradicted_by_index_extends; [apply run_ops_from_extends|done].
Qed.

(** ** The loops of the self-audit *)

(** The result of a loop whose rounds are given by the pure function [g]:
    the loop goes on while [g] answers [Next], and stops at the first
    [Return] or exception. *)
Fixpoint fold_steps {A Acc R} (g : A → Acc → result (step Acc R))
    (xs : list A) (acc : Acc) : result (step Acc R) :=
  match xs with
  | [] => Ok (Next acc)
  | x :: rest =>
      match g x acc with
      | Ok (Next acc') => fold_steps g rest acc'
      | Ok (Return v) => Ok (Return v)
      | Raise e => Raise e
      end
  end.

Section for_each_pure.
Context {A Acc R : Type} (I : PriorityOrder → Prop).
Context (next : M unit) (body : A → Acc → M (step Acc R)).
Context (g : A → Acc → result (step Acc R)).
Context (Hnext : ∀ s, I s → next s = (Ok (), s)).
Context (Hbody : ∀ x acc s, I s → (body x acc s).1 = g x acc ∧ I (body x acc s).2).

(** A loop whose iterator test passes under [I] and whose rounds answer as
    [g] says and keep [I] answers as [fold_steps g] says. *)
Lemma for_each_pure xs acc s :
  I s →
  (for_each next xs body acc s).1 = fold_steps g xs acc
  ∧ I (for_each next xs body acc s).2.
Proof.
  revert acc s. induction xs as [|x xs IH]; intros acc s Hs.
  - cbn [for_each fold_steps]. unfold bind. by rewrite Hnext.
  - assert (for_each next (x :: xs) body acc s
            = match body x acc s with
              | (Ok (Next acc'), s') => for_each next xs body acc' s'
              | (Ok (Return v), s') => (Ok (Return v), s')
              | (Raise e, s') => (Raise e, s')
              end) as ->.
    { cbn [for_each]. unfold bind. rewrite Hnext by done.
      by destruct (body x acc s) as [[[acc'|v]|e] s']. }
    cbn [fold_steps]. destruct (Hbody x acc s Hs) as [Hr HI].
    destruct (body x acc s) as [[[acc'|v]|e] s']; cbn [fst snd] in *; rewrite <- Hr.
    + by apply IH.
    + done.
    + done.
Qed.
End for_each_pure.

Section fold_steps_facts.
Context {A R : Type} (g : A → unit → result (step unit R)).

Lemma fold_steps_Next xs :
  fold_steps g xs () = Ok (Next ()) ↔ ∀ x, x ∈ xs → g x () = Ok (Next ()).
Proof.
  induction xs as [|x xs IH]; cbn [fold_steps].
  - split; [by intros _ x ?%elem_of_nil|done].
  - split.
    + intros H y [->|Hy]%elem_of_cons.
      * by destruct (g x ()) as [[[]|v]|e].
      * destruct (g x ()) as [[[]|v]|e]; [|done|done]. by apply IH.
    + intros H. rewrite (H x) by by left. apply IH. intros y Hy. apply H. by right.
Qed.

Lemma fold_steps_Return xs v :
  fold_steps g xs () = Ok (Return v) → ∃ x, x ∈ xs ∧ g x () = Ok (Return v).
Proof.
  induction xs as [|x xs IH]; cbn [fold_steps]; [done|].
  destruct (g x ()) as [[[]|v']|e] eqn:E; [|intros [= ->]|done].
  - intros (y & Hy & Hg)%IH. exists y. split; [by right|done].
  - exists x. split; [by left|done].
Qed.

Lemma fold_steps_Raise xs e :
  fold_steps g xs () = Raise e → ∃ x, x ∈ xs ∧ g x () = Raise e.
Proof.
  induction xs as [|x xs IH]; cbn [fold_steps]; [done|].
  destruct (g x ()) as [[[]|v']|e'] eqn:E; [|done|intros [= ->]].
  - intros (y & Hy & Hg)%IH. exists y. split; [by right|done].
  - exists x. split; [by left|done].
Qed.
End fold_steps_facts.

(** What holds all along a traversal started in the synchronised state
    [s0]: the state is synchronised, the order is that of [s0], and the
    index buckets hold what they held in [s0]. *)
Definition audit_inv (s0 s : PriorityOrder) : Prop :=
  index_sync s ∧ order s = order s0
  ∧ ∀ f, dd_bucket f (defeated_factor_index s) = dd_bucket f (defeated_factor_index s0).

Lemma audit_inv_refl s0 : index_sync s0 → audit_inv s0 s0.
Proof. by intros H. Qed.

Lemma is_consistent_audit s0 s r d :
  audit_inv s0 s →
  (is_consistent r d s).1 = (is_consistent r d s0).1
  ∧ audit_inv s0 (is_consistent r d s).2.
Proof.
  intros (Hsync & Ho & Hi). split.
  - rewrite !is_consistent_run.
    assert (supersets_of r s = supersets_of r s0) as ->.
    { unfold supersets_of. do 4 f_equal. apply list_fmap_ext. intros _ f _. apply Hi. }
    destruct (supersets_of r s0); [|done]. cbn [fst].
    unfold no_reason_within. by rewrite Ho.
  - split_and!.
    + by apply keeps_is_consistent.
    + by rewrite is_consistent_order_sync.
    + intros f. destruct (is_consistent_buckets r d s) as [_ ->]. apply Hi.
Qed.

Lemma set_iter_next_audit s0 D s :
  audit_inv s0 s → set_iter_next D (size (dd_bucket D (order s0))) s = (Ok (), s).
Proof. intros (_ & Ho & _). unfold set_iter_next. by rewrite Ho, decide_True. Qed.

Lemma dict_iter_next_audit s0 s :
  audit_inv s0 s → dict_iter_next (length (order s0)) s = (Ok (), s).
Proof. intros (_ & Ho & _). unfold dict_iter_next. by rewrite Ho, decide_True. Qed.

(** One round of the inner loop of [is_cb_consistent]. *)
Definition check_pair (s0 : PriorityOrder) (defeated reason : fset) (_ : unit) :
    result (step unit bool) :=
  match (is_consistent reason defeated s0).1 with
  | Ok b => Ok (if negb b then Return false else Next ())
  | Raise e => Raise e
  end.

(** The traversal of [is_cb_consistent] from the state [s0]. *)
Definition audit_result (s0 : PriorityOrder) : result (step unit bool) :=
  fold_steps
    (λ (item : fset * gset fset) (_ : unit),
       fold_steps (check_pair s0 item.1) (elements (dd_bucket item.1 (order s0))) ())
    (order s0) ().

Lemma is_cb_consistent_audit s0 :
  index_sync s0 →
  (is_cb_consistent s0).1
  = match audit_result s0 with
    | Ok (Next _) => Ok true
    | Ok (Return b) => Ok b
    | Raise e => Raise e
    end.
Proof.
  intros Hsync. unfold is_cb_consistent, audit_result.
  unfold bind at 1. unfold bind at 1. cbn beta.
  match goal with |- context [for_each ?n ?xs ?b ?a s0] =>
    pose proof (for_each_pure (audit_inv s0) n b
      (λ (item : fset * gset fset) (_ : unit),
         fold_steps (check_pair s0 item.1) (elements (dd_bucket item.1 (order s0))) ())
      (dict_iter_next_audit s0)) as Hloop
  end.
  lapply Hloop; [clear Hloop; intros Hloop|].
  2: { intros [D b] [] s Hs. cbn [fst]. unfold bind. cbv beta iota.
    pose proof Hs as (Hsy & Ho & Hi). rewrite Ho.
    apply (for_each_pure (audit_inv s0)); [apply set_iter_next_audit| |done].
    intros R [] s' Hs'.
    destruct (is_consistent_audit s0 s' R D Hs') as [Hr HI]. unfold check_pair.
    rewrite <- Hr. destruct (is_consistent R D s') as [[[|]|e] s'']; done. }
  destruct (Hloop (order s0) () s0 (audit_inv_refl _ Hsync)) as [Hr _].
  rewrite (surjective_pairing (for_each _ _ _ _ _)), Hr.
  by destruct (fold_steps _ _ _) as [[[]|b]|e].
Qed.

(** One round of the inner loop of [count_inconsistencies]: the key of the
    order is passed as [new_reason], the member of its bucket as
    [new_defeated]. *)
Definition count_pair (s0 : PriorityOrder) (key member : fset) (count : nat) :
    result (step nat nat) :=
  match (is_consistent key member s0).1 with
  | Ok b => Ok (Next (if negb b then count + 1 else count))
  | Raise e => Raise e
  end.

(** The traversal of [count_inconsistencies] from the state [s0]. *)
Definition count_result (s0 : PriorityOrder) : result (step nat nat) :=
  fold_steps
    (λ (item : fset * gset fset) (count : nat),
       fold_steps (count_pair s0 item.1) (elements (dd_bucket item.1 (order s0))) count)
    (order s0) 0.

Lemma count_inconsistencies_audit s0 :
  index_sync s0 →
  (count_inconsistencies s0).1
  = match count_result s0 with
    | Ok (Next n) => Ok n
    | Ok (Return n) => Ok n
    | Raise e => Raise e
    end.
Proof.
  intros Hsync. unfold count_inconsistencies, count_result.
  unfold bind at 1. unfold bind at 1. cbn beta.
  match goal with |- context [for_each ?n ?xs ?b ?a s0] =>
    pose proof (for_each_pure (audit_inv s0) n b
      (λ (item : fset * gset fset) (count : nat),
         fold_steps (count_pair s0 item.1) (elements (dd_bucket item.1 (order s0))) count)
      (dict_iter_next_audit s0)) as Hloop
  end.
  lapply Hloop; [clear Hloop; intros Hloop|].
  2: { intros [D b] count s Hs. cbn [fst]. unfold bind. cbv beta iota.
    pose proof Hs as (Hsy & Ho & Hi). rewrite Ho.
    apply (for_each_pure (audit_inv s0)); [apply set_iter_next_audit| |done].
    intros R count' s' Hs'.
    destruct (is_consistent_audit s0 s' D R Hs') as [Hr HI]. unfold count_pair.
    rewrite <- Hr. destruct (is_consistent D R s') as [[[|]|e] s'']; done. }
  destruct (Hloop (order s0) 0 s0 (audit_inv_refl _ Hsync)) as [Hr _].
  rewrite (surjective_pairing (for_each _ _ _ _ _)), Hr.
  by destruct (fold_steps _ _ _) as [[n|n]|e].
Qed.

Lemma is_consistent_empty d s : (is_consistent ∅ d s).1 = Raise TypeError.
Proof. by rewrite is_consistent_run, supersets_of_empty. Qed.

Lemma is_consistent_raise r d s e :
  (is_consistent r d s).1 = Raise e → e = TypeError ∧ r = ∅.
Proof.
  intros He. destruct (decide (r = ∅)) as [->|Hne].
  - rewrite is_consistent_empty in He. by injection He as <-.
  - rewrite is_consistent_run in He.
    by destruct (supersets_of_nonempty r s Hne) as (S & HS & _); rewrite HS in He.
Qed.

Lemma outweighs_item s R D :
  outweighs s R D ↔
  ∃ item, item ∈ order s ∧ item.1 = D ∧ R ∈ elements (dd_bucket item.1 (order s)).
Proof.
  split.
  - intros HR. pose proof (dd_bucket_keys D R (order s) HR) as HD.
    unfold dd_keys in HD. apply list_elem_of_fmap in HD as (item & -> & Hitem).
    exists item. by rewrite elem_of_elements.
  - intros (item & _ & <- & HR). by apply elem_of_elements in HR.
Qed.

Section audit_result.
Context (s0 : PriorityOrder).

Lemma check_pair_Next D R :
  check_pair s0 D R () = Ok (Next ()) ↔ (is_consistent R D s0).1 = Ok true.
Proof. unfold check_pair. by destruct (is_consistent R D s0).1 as [[|]|e]. Qed.

Lemma check_pair_Return D R v :
  check_pair s0 D R () = Ok (Return v) ↔ v = false ∧ (is_consistent R D s0).1 = Ok false.
Proof.
  unfold check_pair. destruct (is_consistent R D s0).1 as [[|]|e]; cbn [negb]; naive_solver.
Qed.

Lemma check_pair_Raise D R e :
  check_pair s0 D R () = Raise e ↔ (is_consistent R D s0).1 = Raise e.
Proof.
  unfold check_pair. destruct (is_consistent R D s0).1 as [[|]|e']; cbn [negb]; naive_solver.
Qed.

Lemma audit_result_Next :
  audit_result s0 = Ok (Next ()) ↔
  ∀ R D, outweighs s0 R D → (is_consistent R D s0).1 = Ok true.
Proof.
  unfold audit_result. rewrite fold_steps_Next. split.
  - intros H R D (item & Hitem & <- & HR)%outweighs_item.
    specialize (H item Hitem). cbv beta in H. rewrite fold_steps_Next in H.
    by apply check_pair_Next, H.
  - intros H item Hitem. apply fold_steps_Next. intros R HR.
    apply check_pair_Next, H, outweighs_item. by exists item.
Qed.

Lemma audit_result_Return v :
  audit_result s0 = Ok (Return v) →
  v = false ∧ ∃ R D, outweighs s0 R D ∧ (is_consistent R D s0).1 = Ok false.
Proof.
  unfold audit_result.
  intros (item & Hitem & (R & HR & [-> Hc]%check_pair_Return)%fold_steps_Return)%fold_steps_Return.
  split; [done|]. exists R, item.1. split; [|done]. apply outweighs_item. by exists item.
Qed.

Lemma audit_result_Raise e :
  audit_result s0 = Raise e →
  ∃ R D, outweighs s0 R D ∧ (is_consistent R D s0).1 = Raise e.
Proof.
  unfold audit_result.
  intros (item & Hitem & (R & HR & Hc%check_pair_Raise)%fold_steps_Raise)%fold_steps_Raise.
  exists R, item.1. split; [|done]. apply outweighs_item. by exists item.
Qed.
End audit_result.

(** The three outcomes of the self-audit on a synchronised state. *)
Lemma is_cb_consistent_sync s :
  index_sync s →
  ((is_cb_consistent s).1 = Ok true ↔
     ∀ R D, outweighs s R D → (is_consistent R D s).1 = Ok true)
  ∧ ((is_cb_consistent s).1 = Ok false →
       ∃ R D, outweighs s R D ∧ (is_consistent R D s).1 = Ok false)
  ∧ (∀ e, (is_cb_consistent s).1 = Raise e → e = TypeError ∧ ∃ D, outweighs s ∅ D).
Proof.
  intros Hsync. rewrite (is_cb_consistent_audit s Hsync).
  pose proof (audit_result_Next s) as HN.
  pose proof (audit_result_Return s) as HR.
  pose proof (audit_result_Raise s) as HE.
  destruct (audit_result s) as [[[]|v]|e].
  - split_and!; [|done|done]. split; [intros _; by apply HN|done].
  - destruct (HR v eq_refl) as [-> Hex]. split_and!; [|done|done].
    split; [done|]. intros H. destruct Hex as (R & D & HRD & Hc).
    rewrite (H R D HRD) in Hc. done.
  - destruct (HE e eq_refl) as (R & D & HRD & Hc).
    apply is_consistent_raise in Hc as [-> ->].
    split_and!; [|done|].
    + split; [done|]. intros H. specialize (H ∅ D HRD).
      by rewrite is_consistent_empty in H.
    + intros e' [= <-]. eauto.
Qed.

(** On every state reached by method calls from a new [PriorityOrder],
    [is_cb_consistent] returns [True] exactly when every stored pair has a
    non-empty reason and is contradicted by no stored pair; it returns
    [False] only if some stored pair is contradicted; it raises only
    [TypeError], and only if an empty reason is stored. *)
Theorem is_cb_consistent_reachable (ops : list op) :
  ((is_cb_consistent (run_ops ops)).1 = Ok true ↔
     ∀ R D, outweighs (run_ops ops) R D → R ≠ ∅ ∧ ¬ contradicted (run_ops ops) R D)
  ∧ ((is_cb_consistent (run_ops ops)).1 = Ok false →
       ∃ R D, outweighs (run_ops ops) R D ∧ R ≠ ∅ ∧ contradicted (run_ops ops) R D)
  ∧ (∀ e, (is_cb_consistent (run_ops ops)).1 = Raise e →
          e = TypeError ∧ ∃ D, outweighs (run_ops ops) ∅ D)
  ∧ ((∀ R D, outweighs (run_ops ops) R D → R ≠ ∅) →
       ∃ b, (is_cb_consistent (run_ops ops)).1 = Ok b).
Proof.
  pose proof (run_ops_sync ops) as Hsync.
  destruct (is_cb_consistent_sync _ Hsync) as (HT & HF & HE).
  pose proof (λ R D, is_consistent_result R D (run_ops ops)) as Hres.
  pose proof (λ R D, contradicted_sync (run_ops ops) R D Hsync) as Hc.
  split_and!.
  - rewrite HT. split.
    + intros H R D HRD. apply H, Hres in HRD as [Hne Hn]. split; [done|].
      intros H'. apply Hn. by apply Hc.
    + intros H R D HRD. destruct (H R D HRD) as [Hne Hn]. apply Hres. split; [done|].
      intros H'. apply Hn. by apply Hc.
  - intros (R & D & HRD & [Hne Hco]%Hres)%HF. exists R, D. split_and!; [done|done|].
    by apply Hc.
  - done.
  - intros Hne. destruct (is_cb_consistent (run_ops ops)).1 as [b|e] eqn:E; [by eexists|].
    destruct (HE e eq_refl) as [_ [D HD]]. by destruct (Hne ∅ D).
Qed.

Lemma unsafe_add_case_snd_sync c s : index_sync s → index_sync (unsafe_add_case c s).2.
Proof. apply keeps_unsafe_add_case. Qed.

Lemma unsafe_add_case_snd_extends c s : extends s (unsafe_add_case c s).2.
Proof. apply (run_ops_from_extends [UnsafeAddCase c] s). Qed.

Lemma unsafe_add_case_snd_recorded c s :
  outweighs (unsafe_add_case c s).2 (reason c) (defeated c).
Proof. rewrite unsafe_add_case_run. apply unsafe_add_case_state_recorded. Qed.

Lemma is_cb_consistent_not_true s R D :
  index_sync s → outweighs s R D → (is_consistent R D s).1 ≠ Ok true →
  (is_cb_consistent s).1 = Ok false ∨ (is_cb_consistent s).1 = Raise TypeError.
Proof.
  intros Hsync HRD Hn. destruct (is_cb_consistent_sync s Hsync) as (HT & _ & HE).
  destruct (is_cb_consistent s).1 as [[|]|e].
  - destruct Hn. by apply HT.
  - by left.
  - right. by destruct (HE e eq_refl) as [-> _].
Qed.

(** A case that [is_case_consistent_with] rejects and that is folded in all
    the same makes the self-audit fail: after [unsafe_add_case],
    [is_cb_consistent] returns [False], or raises [TypeError] if it first
    meets a stored pair with an empty reason. *)
Theorem audit_fails_after_rejected_case (ops : list op) (case : Case) :
  (is_case_consistent_with case (run_ops ops)).1 = Ok false →
  (is_cb_consistent (unsafe_add_case case (run_ops ops)).2).1 = Ok false
  ∨ (is_cb_consistent (unsafe_add_case case (run_ops ops)).2).1 = Raise TypeError.
Proof.
  intros [Hne Hc]%is_consistent_result.
  apply (is_cb_consistent_not_true _ (reason case) (defeated case)).
  - apply unsafe_add_case_snd_sync, run_ops_sync.
  - apply unsafe_add_case_snd_recorded.
  - intros [_ Hn]%is_consistent_result. apply Hn.
    eapply contradicted_by_index_extends; [apply unsafe_add_case_snd_extends|done].
Qed.

(** [pi] wins with reason [{A}] over the [delta] factor [B]. *)
Definition case_pi_A_B : Case :=
  mkCase {[mkFactor "A" (VEnum pi)]} {[mkFactor "B" (VEnum delta)]} (VEnum pi)
         {[mkFactor "A" (VEnum pi)]}.

(** The same factors decided the other way: [delta] wins with reason [{B}]
    over the [pi] factor [A]. *)
Definition case_delta_A_B : Case :=
  mkCase {[mkFactor "A" (VEnum pi)]} {[mkFactor "B" (VEnum delta)]} (VEnum delta)
         {[mkFactor "B" (VEnum delta)]}.

Lemma audit_fails_after_rejected_case_witness :
  (is_cb_consistent (unsafe_add_case case_delta_A_B (run_ops [UnsafeAddCase case_pi_A_B])).2).1
    = Ok false
  ∨ (is_cb_consistent (unsafe_add_case case_delta_A_B (run_ops [UnsafeAddCase case_pi_A_B])).2).1
    = Raise TypeError.
Proof.
  apply (audit_fails_after_rejected_case [UnsafeAddCase case_pi_A_B] case_delta_A_B).
  vm_compute. reflexivity.
Defined.

Lemma inconsistency_persists_witness :
  (is_consistent {[mkFactor "B" (VEnum delta)]} {[mkFactor "A" (VEnum pi)]}
     (run_ops_from (run_ops [UnsafeAddCase case_pi_A_B])
        [UnsafeAddCase case_delta_A_B; IsCbConsistent])).1 = Ok false.
Proof.
  apply (inconsistency_persists (run_ops [UnsafeAddCase case_pi_A_B])
           [UnsafeAddCase case_delta_A_B; IsCbConsistent]).
  vm_compute. reflexivity.
Defined.

(** Once a case with an empty reason has been folded in, whatever its
    factors and its decision (the default [Case()] is one), the self-audit
    no longer returns [True]: it returns [False] or raises [TypeError]. *)
Theorem audit_fails_after_empty_reason (ops : list op) (p d : fset) (dec : pyval) :
  (is_cb_consistent (unsafe_add_case (mkCase p d dec ∅) (run_ops ops)).2).1 = Ok false
  ∨ (is_cb_consistent (unsafe_add_case (mkCase p d dec ∅) (run_ops ops)).2).1
    = Raise TypeError.
Proof.
  apply (is_cb_consistent_not_true _ ∅ (defeated (mkCase p d dec ∅))).
  - apply unsafe_add_case_snd_sync, run_ops_sync.
  - apply (unsafe_add_case_snd_recorded (mkCase p d dec ∅)).
  - by rewrite is_consistent_empty.
Qed.

(** ** What [count_inconsistencies] counts *)

(** The stored pairs, in the order of the traversal: each key of the order
    with each member of its bucket. *)
Definition stored_pairs (s : PriorityOrder) : list (fset * fset) :=
  mjoin ((λ item : fset * gset fset,
             (λ R, (item.1, R)) <$> elements (dd_bucket item.1 (order s))) <$> order s).

Lemma stored_pairs_outweighs s R D : (D, R) ∈ stored_pairs s ↔ outweighs s R D.
Proof.
  unfold stored_pairs. rewrite outweighs_item, list_elem_of_join. split.
  - intros (l & Hin & (item & -> & Hitem)%list_elem_of_fmap).
    apply list_elem_of_fmap in Hin as (R' & Heq & HR).
    injection Heq as -> ->. by exists item.
  - intros (item & Hitem & <- & HR).
    exists ((λ R, (item.1, R)) <$> elements (dd_bucket item.1 (order s))). split.
    + apply list_elem_of_fmap. by exists R.
    + apply list_elem_of_fmap. by exists item.
Qed.

(** On a synchronised state, a key that is not empty contradicts itself
    with each member of its bucket. *)
Lemma is_consistent_key_member s D R :
  index_sync s → D ≠ ∅ → outweighs s R D → (is_consistent D R s).1 = Ok false.
Proof.
  intros Hsync Hne HRD. apply is_consistent_result. split; [done|].
  apply contradicted_sync; [done|done|]. by exists D, R.
Qed.

Lemma count_pairs_all s D ms (count : nat) :
  (∀ R, R ∈ ms → (is_consistent D R s).1 = Ok false) →
  fold_steps (count_pair s D) ms count = Ok (Next (count + length ms)).
Proof.
  revert count. induction ms as [|R ms IH]; intros count Hms; cbn [fold_steps length].
  - by rewrite Nat.add_0_r.
  - unfold count_pair at 1. rewrite (Hms R) by by left. cbn [negb].
    rewrite IH by (intros R' HR'; apply Hms; by right). do 2 f_equal. lia.
Qed.

Lemma count_fold_all s items (count : nat) :
  index_sync s → (∀ item : fset * gset fset, item ∈ items → item.1 ≠ ∅) →
  fold_steps
    (λ (item : fset * gset fset) (count : nat),
       fold_steps (count_pair s item.1) (elements (dd_bucket item.1 (order s))) count)
    items count
  = Ok (Next (count + length (mjoin ((λ item : fset * gset fset,
             (λ R, (item.1, R)) <$> elements (dd_bucket item.1 (order s))) <$> items)))).
Proof.
  intros Hsync. revert count.
  induction items as [|item items IH]; intros count Hitems; cbn [fold_steps].
  - cbn. by rewrite Nat.add_0_r.
  - rewrite count_pairs_all.
    + rewrite IH by (intros i Hi; apply Hitems; by right).
      rewrite fmap_cons.
      change (mjoin (?l :: ?ls)) with (l ++ mjoin ls).
      rewrite length_app, length_fmap.
      do 2 f_equal. lia.
    + intros R HR%elem_of_elements. apply is_consistent_key_member; [done| |done].
      apply Hitems. by left.
Qed.

Lemma count_result_all s :
  index_sync s → ∅ ∉ dd_keys (order s) →
  count_result s = Ok (Next (length (stored_pairs s))).
Proof.
  intros Hsync Hkeys. unfold count_result, stored_pairs.
  rewrite count_fold_all; [done|done|].
  intros item Hitem ?. apply Hkeys. unfold dd_keys.
  apply list_elem_of_fmap. by exists item.
Qed.

(** On a state reached by method calls from a new [PriorityOrder] in which
    no empty defeated set is a key of the order, [count_inconsistencies]
    returns the number of stored pairs, whether they are consistent or not:
    asked with the key as [new_reason] and a member of its own bucket as
    [new_defeated], [is_consistent] always answers [False]. *)
Theorem count_inconsistencies_counts_all (ops : list op) :
  ∅ ∉ dd_keys (order (run_ops ops)) →
  (count_inconsistencies (run_ops ops)).1 = Ok (length (stored_pairs (run_ops ops)))
  ∧ ∀ R D, outweighs (run_ops ops) R D → (is_consistent D R (run_ops ops)).1 = Ok false.
Proof.
  intros Hkeys. pose proof (run_ops_sync ops) as Hsync. split.
  - rewrite (count_inconsistencies_audit _ Hsync). by rewrite count_result_all.
  - intros R D HRD. apply is_consistent_key_member; [done| |done].
    intros ->. apply Hkeys. by apply (dd_bucket_keys ∅ R).
Qed.

Lemma count_inconsistencies_counts_all_witness :
  (count_inconsistencies (run_ops [UnsafeAddCase case_pi_A_B])).1
    = Ok (length (stored_pairs (run_ops [UnsafeAddCase case_pi_A_B])))
  ∧ ∀ R D, outweighs (run_ops [UnsafeAddCase case_pi_A_B]) R D →
           (is_consistent D R (run_ops [UnsafeAddCase case_pi_A_B])).1 = Ok false.
Proof.
  apply (count_inconsistencies_counts_all [UnsafeAddCase case_pi_A_B]).
  apply (bool_decide_unpack _). vm_compute. exact I.
Defined.

(** ** Cases read from records *)

Lemma factor_set_disjoint (p q : decision_enum) (l1 l2 : list string) :
  p ≠ q → factor_set p l1 ## factor_set q l2.
Proof.
  intros Hpq f [H1 _]%elem_of_factor_set [H2 _]%elem_of_factor_set. congruence.
Qed.

Lemma factor_set_ext (p : decision_enum) (l1 l2 : list string) :
  (list_to_set l1 : gset string) = list_to_set l2 → factor_set p l1 = factor_set p l2.
Proof.
  intros Heq. apply set_eq. intros f. rewrite !elem_of_factor_set.
  assert (∀ n, n ∈ l1 ↔ n ∈ l2) as Hn.
  { intros n. rewrite <- !(elem_of_list_to_set (C := gset string)). by rewrite Heq. }
  by rewrite Hn.
Qed.

(** A case returned by [Case.from_dict] has a member of [decision_enum] as
    its decision; its [pi] factors are tagged [pi] and its [delta] factors
    [delta], so that the two sides are disjoint; its reason is included in
    the side of the decision ([delta_factors] when undecided) and is disjoint
    from [defeated()]; an undecided case has an empty reason and an empty
    [defeated()]. *)
Theorem from_dict_case_invariants (dic : case_dict) (c : Case) :
  from_dict dic = Ok c →
  (∃ m, decision c = VEnum m)
  ∧ (∀ f, f ∈ pi_factors c → polarity f = VEnum pi)
  ∧ (∀ f, f ∈ delta_factors c → polarity f = VEnum delta)
  ∧ pi_factors c ## delta_factors c
  ∧ reason c ⊆ (if py_eqb (decision c) (VEnum pi) then pi_factors c else delta_factors c)
  ∧ reason c ## defeated c
  ∧ (decision c = VEnum un → reason c = ∅ ∧ defeated c = ∅).
Proof.
  unfold from_dict.
  destruct (decision_enum_getitem (dic_decision dic)) as [m|e]; [|done].
  case_bool_decide as Hsub; [|done]. intros [= <-].
  cbn [decision pi_factors delta_factors reason].
  split_and!.
  - by exists m.
  - by intros f [? _]%elem_of_factor_set.
  - by intros f [? _]%elem_of_factor_set.
  - by apply factor_set_disjoint.
  - unfold winning_factors in Hsub. destruct m; exact Hsub.
  - unfold winning_factors in Hsub. unfold defeated. cbn [decision pi_factors delta_factors].
    destruct m; cbn.
    + by apply factor_set_disjoint.
    + by apply factor_set_disjoint.
    + set_solver.
  - intros [= ->]. split; [|done].
    unfold winning_factors in Hsub. cbn in Hsub.
    apply elem_of_equiv_empty_L. intros f Hf.
    pose proof (Hsub f Hf) as [Hd _]%elem_of_factor_set.
    apply elem_of_factor_set in Hf as [Hu _]. congruence.
Qed.

(** The case that [Case.from_dict] builds from [Case1_dict]. *)
Definition Case1_A_B : Case :=
  mkCase (factor_set pi ["A"; "B"]) (factor_set delta []) (VEnum pi) (factor_set pi ["A"]).

Lemma from_dict_case_invariants_witness :
  (∃ m, decision Case1_A_B = VEnum m)
  ∧ (∀ f, f ∈ pi_factors Case1_A_B → polarity f = VEnum pi)
  ∧ (∀ f, f ∈ delta_factors Case1_A_B → polarity f = VEnum delta)
  ∧ pi_factors Case1_A_B ## delta_factors Case1_A_B
  ∧ reason Case1_A_B ⊆ (if py_eqb (decision Case1_A_B) (VEnum pi)
                        then pi_factors Case1_A_B else delta_factors Case1_A_B)
  ∧ reason Case1_A_B ## defeated Case1_A_B
  ∧ (decision Case1_A_B = VEnum un → reason Case1_A_B = ∅ ∧ defeated Case1_A_B = ∅).
Proof.
  apply (from_dict_case_invariants Case1_dict Case1_A_B). vm_compute. reflexivity.
Defined.

(** [Case.from_dict] reads its three lists of names as sets: records whose
    lists hold the same names, in any order and with any repetition, and
    whose decision labels are equal give the same result. *)
Theorem from_dict_reads_sets (dic dic' : case_dict) :
  (list_to_set (dic_pi dic) : gset string) = list_to_set (dic_pi dic') →
  (list_to_set (dic_delta dic) : gset string) = list_to_set (dic_delta dic') →
  (list_to_set (dic_reason dic) : gset string) = list_to_set (dic_reason dic') →
  dic_decision dic = dic_decision dic' →
  from_dict dic = from_dict dic'.
Proof.
  intros Hpi Hdelta Hreason Hdec. unfold from_dict, winning_factors.
  rewrite Hdec.
  rewrite (factor_set_ext pi _ _ Hpi), (factor_set_ext delta _ _ Hdelta).
  destruct (decision_enum_getitem (dic_decision dic')) as [m|e]; [|done].
  by rewrite (factor_set_ext m _ _ Hreason).
Qed.

Lemma from_dict_reads_sets_witness :
  from_dict (mkDict ["A"; "B"; "A"] ["C"] "pi" ["B"; "A"])
  = from_dict (mkDict ["B"; "A"] ["C"; "C"] "pi" ["A"; "B"; "B"]).
Proof.
  apply (from_dict_reads_sets (mkDict ["A"; "B"; "A"] ["C"] "pi" ["B"; "A"])
           (mkDict ["B"; "A"] ["C"; "C"] "pi" ["A"; "B"; "B"])).
  - apply (bool_decide_unpack _). vm_compute. exact I.
  - apply (bool_decide_unpack _). vm_compute. exact I.
  - apply (bool_decide_unpack _). vm_compute. exact I.
  - reflexivity.
Defined.

(** ** CaseBase *)

(** The list objects of the program, by address. [CaseBase.__init__] keeps
    the list it is given without copying it, and [add_case] appends to that
    list in place. *)
Abbreviation lists := (gmap nat (list Case)).

(** The default value of the parameter [caselist]: the list [[]] built once,
    when [__init__] is defined, and handed to every call that passes no
    list. *)
Definition default_caselist : nat := 0.

(** The lists when the program starts: the default [caselist], empty. *)
Definition lists_init : lists := {[ default_caselist := [] ]}.

(** The list at an address. *)
Definition list_at (h : lists) (l : nat) : list Case := default [] (h !! l).

(** A [CaseBase]: the address of [self.cases] and the state of
    [self.order]. *)
Record CaseBase : Type := mkCaseBase { cb_cases : nat; cb_order : PriorityOrder }.

(** [CaseBase.__init__(self, caselist=[])] *)
Definition CaseBase_init (caselist : option nat) (h : lists) : result CaseBase * lists :=
  let cases := default default_caselist caselist in
  match unsafe_add_cases (list_at h cases) PriorityOrder_init with
  | (Ok _, o) => (Ok (mkCaseBase cases o), h)
  | (Raise e, _) => (Raise e, h)
  end.

(** [CaseBase.add_case]: the updated object and the lists. *)
Definition add_case (self : CaseBase) (case : Case) (h : lists) : result CaseBase * lists :=
  let h' := <[cb_cases self := list_at h (cb_cases self) ++ [case]]> h in
  match unsafe_add_case case (cb_order self) with
  | (Ok _, o) => (Ok (mkCaseBase (cb_cases self) o), h')
  | (Raise e, _) => (Raise e, h')
  end.

(** [CaseBase.is_cb_consistent] and [CaseBase.is_consistent_with]: the
    answer, and the object after the call. *)
Definition CaseBase_is_cb_consistent (self : CaseBase) : result bool * CaseBase :=
  let '(r, o) := is_cb_consistent (cb_order self) in (r, mkCaseBase (cb_cases self) o).

Definition CaseBase_is_consistent_with (self : CaseBase) (case : Case) :
    result bool * CaseBase :=
  let '(r, o) := is_case_consistent_with case (cb_order self) in
  (r, mkCaseBase (cb_cases self) o).

(** [CaseBase.metrics], without its two [print]s. *)
Definition metrics (self : CaseBase) (h : lists) : result (nat * nat) * CaseBase :=
  let size := length (list_at h (cb_cases self)) in
  match count_inconsistencies (cb_order self) with
  | (Ok inconsistencies, o) => (Ok (size, inconsistencies), mkCaseBase (cb_cases self) o)
  | (Raise e, o) => (Raise e, mkCaseBase (cb_cases self) o)
  end.

(** [for c in cs: self.add_case(c)] *)
Fixpoint add_cases (self : CaseBase) (cs : list Case) (h : lists) : result CaseBase * lists :=
  match cs with
  | [] => (Ok self, h)
  | c :: rest =>
      match add_case self c h with
      | (Ok self', h') => add_cases self' rest h'
      | (Raise e, h') => (Raise e, h')
      end
  end.

Lemma CaseBase_init_run caselist h :
  CaseBase_init caselist h
  = (Ok (mkCaseBase (default default_caselist caselist)
           (unsafe_add_cases_state (list_at h (default default_caselist caselist))
              PriorityOrder_init)), h).
Proof. unfold CaseBase_init. by rewrite unsafe_add_cases_run. Qed.

Lemma add_case_run self c h :
  add_case self c h
  = (Ok (mkCaseBase (cb_cases self) (unsafe_add_case_state c (cb_order self))),
     <[cb_cases self := list_at h (cb_cases self) ++ [c]]> h).
Proof. unfold add_case. by rewrite unsafe_add_case_run. Qed.

Lemma list_at_insert h l l' cs :
  list_at (<[l := cs]> h) l' = if decide (l' = l) then cs else list_at h l'.
Proof.
  unfold list_at. case_decide as E.
  - subst. by rewrite lookup_insert_eq.
  - by rewrite lookup_insert_ne.
Qed.

(** The lists after the cases [cs] have been appended to the list at [l]. *)
Definition lists_after (h : lists) (l : nat) (cs : list Case) : lists :=
  if cs is [] then h else <[l := list_at h l ++ cs]> h.

Lemma list_at_lists_after h l cs : list_at (lists_after h l cs) l = list_at h l ++ cs.
Proof.
  unfold lists_after. destruct cs; [by rewrite app_nil_r|].
  by rewrite list_at_insert, decide_True.
Qed.

Lemma add_cases_run self cs h :
  add_cases self cs h
  = (Ok (mkCaseBase (cb_cases self) (unsafe_add_cases_state cs (cb_order self))),
     lists_after h (cb_cases self) cs).
Proof.
  revert self h. induction cs as [|c cs IH]; intros self h.
  - by destruct self.
  - cbn [add_cases]. rewrite add_case_run, IH. cbn [cb_cases cb_order].
    f_equal. unfold lists_after. rewrite list_at_insert, decide_True by done.
    rewrite <- app_assoc. cbn [app].
    destruct cs; [done|]. by rewrite insert_insert_eq.
Qed.

(** Adding cases one by one to a [CaseBase] built on a list gives the object
    that [CaseBase] builds in one go on the list as it then stands: the list
    holds the old cases followed by the added ones, and the order is the
    replay of that list on a new [PriorityOrder]. No call raises. *)
Theorem add_cases_is_bulk_load (h : lists) (caselist : option nat) (cs : list Case) :
  ∃ cb0 cb h',
    CaseBase_init caselist h = (Ok cb0, h)
    ∧ add_cases cb0 cs h = (Ok cb, h')
    ∧ list_at h' (cb_cases cb) = list_at h (cb_cases cb0) ++ cs
    ∧ cb_order cb = (unsafe_add_cases (list_at h' (cb_cases cb)) PriorityOrder_init).2
    ∧ CaseBase_init (Some (cb_cases cb)) h' = (Ok cb, h').
Proof.
  do 3 eexists. rewrite CaseBase_init_run. split; [done|].
  rewrite add_cases_run. split; [done|]. cbn [cb_cases cb_order].
  set (l := default default_caselist caselist).
  assert (unsafe_add_cases_state cs (unsafe_add_cases_state (list_at h l) PriorityOrder_init)
          = unsafe_add_cases_state (list_at h l ++ cs) PriorityOrder_init) as Hreplay.
  { unfold unsafe_add_cases_state. by rewrite foldl_app. }
  split_and!.
  - apply list_at_lists_after.
  - by rewrite unsafe_add_cases_run, list_at_lists_after.
  - rewrite CaseBase_init_run. cbn [default]. by rewrite list_at_lists_after, Hreplay.
Qed.

(** The default [caselist] is shared. When [cb1 = CaseBase()] and
    [cb2 = CaseBase()] are built at the start of the program and a case is
    added to [cb1], the list of [cb2] holds that case as well, while the
    order of [cb2] is still empty and is not the replay of its list; and a
    [CaseBase()] built afterwards starts with the case in its list and in
    its order. *)
Theorem default_caselist_is_shared (case : Case) :
  ∃ cb1 cb2 cb1' cb3 h',
    CaseBase_init None lists_init = (Ok cb1, lists_init)
    ∧ CaseBase_init None lists_init = (Ok cb2, lists_init)
    ∧ add_case cb1 case lists_init = (Ok cb1', h')
    ∧ list_at h' (cb_cases cb2) = [case]
    ∧ cb_order cb2 = PriorityOrder_init
    ∧ cb_order cb2 ≠ (unsafe_add_cases (list_at h' (cb_cases cb2)) PriorityOrder_init).2
    ∧ CaseBase_init None h' = (Ok cb3, h')
    ∧ list_at h' (cb_cases cb3) = [case]
    ∧ cb_order cb3 = (unsafe_add_case case PriorityOrder_init).2.
Proof.
  assert (list_at lists_init default_caselist = []) as Hl0.
  { unfold list_at, lists_init. by rewrite lookup_singleton_eq. }
  assert (list_at (<[default_caselist := [case]]> lists_init) default_caselist = [case])
    as Hl1 by by rewrite list_at_insert, decide_True.
  assert (unsafe_add_cases_state [case] PriorityOrder_init
          = unsafe_add_case_state case PriorityOrder_init) as Hone by done.
  exists (mkCaseBase default_caselist PriorityOrder_init),
         (mkCaseBase default_caselist PriorityOrder_init),
         (mkCaseBase default_caselist (unsafe_add_case_state case PriorityOrder_init)),
         (mkCaseBase default_caselist (unsafe_add_case_state case PriorityOrder_init)),
         (<[default_caselist := [case]]> lists_init).
  rewrite !CaseBase_init_run, add_case_run. cbn [default cb_cases cb_order].
  rewrite Hl0, Hl1, Hone. cbn [app].
  split_and!; try done.
  - rewrite unsafe_add_cases_run. cbn [snd]. rewrite Hone.
    intros E. apply (f_equal (λ s, length (order s))) in E.
    pose proof (unsafe_add_case_state_recorded case PriorityOrder_init) as Hrec.
    apply dd_bucket_keys in Hrec. unfold dd_keys in Hrec.
    destruct (order (unsafe_add_case_state case PriorityOrder_init));
      [by apply elem_of_nil in Hrec|done].
  - by rewrite unsafe_add_case_run.
Qed.

(** ** Queries do not change answers *)

(** The calls that ask and do not insert. *)
Inductive query : Type :=
  | QIsConsistent (new_reason new_defeated : fset)
  | QIsCbConsistent
  | QCountInconsistencies
  | QIsCaseConsistentWith (case : Case).

Definition op_of_query (q : query) : op :=
  match q with
  | QIsConsistent new_reason new_defeated => IsConsistent new_reason new_defeated
  | QIsCbConsistent => IsCbConsistent
  | QCountInconsistencies => CountInconsistencies
  | QIsCaseConsistentWith case => IsCaseConsistentWith case
  end.

Lemma keeps_audit_is_consistent s0 r d : keeps (audit_inv s0) (is_consistent r d).
Proof. intros s Hs. by apply is_consistent_audit. Qed.

Lemma run_query_audit s0 q s : audit_inv s0 s → audit_inv s0 (run_op (op_of_query q) s).
Proof.
  intros Hs. destruct q; cbn [op_of_query run_op].
  - by apply keeps_audit_is_consistent.
  - by apply (keeps_is_cb_consistent_gen _ (keeps_audit_is_consistent s0)).
  - by apply (keeps_count_inconsistencies_gen _ (keeps_audit_is_consistent s0)).
  - by apply keeps_audit_is_consistent.
Qed.

Lemma run_queries_audit s0 qs :
  index_sync s0 → audit_inv s0 (run_ops_from s0 (op_of_query <$> qs)).
Proof.
  intros Hsync. unfold run_ops_from.
  assert (∀ s, audit_inv s0 s → audit_inv s0 (foldl (λ s o, run_op o s) s (op_of_query <$> qs)))
    as H; [|by apply H, audit_inv_refl].
  induction qs as [|q qs IH]; intros s Hs; [done|].
  cbn [fmap list_fmap foldl]. by apply IH, run_query_audit.
Qed.

Lemma fold_steps_ext {A Acc R} (g g' : A → Acc → result (step Acc R)) xs acc :
  (∀ x acc, g x acc = g' x acc) → fold_steps g xs acc = fold_steps g' xs acc.
Proof.
  intros Hg. revert acc. induction xs as [|x xs IH]; intros acc; [done|].
  cbn [fold_steps]. rewrite Hg. destruct (g' x acc) as [[acc'|v]|e]; [apply IH|done|done].
Qed.

Lemma audit_result_audit s0 s : audit_inv s0 s → audit_result s = audit_result s0.
Proof.
  intros Hs. pose proof Hs as (_ & Ho & _). unfold audit_result. rewrite Ho.
  apply fold_steps_ext. intros item []. apply fold_steps_ext. intros R u.
  unfold check_pair. by destruct (is_consistent_audit s0 s R item.1 Hs) as [-> _].
Qed.

Lemma count_result_audit s0 s : audit_inv s0 s → count_result s = count_result s0.
Proof.
  intros Hs. pose proof Hs as (_ & Ho & _). unfold count_result. rewrite Ho.
  apply fold_steps_ext. intros item count. apply fold_steps_ext. intros R n.
  unfold count_pair. by destruct (is_consistent_audit s0 s item.1 R Hs) as [-> _].
Qed.

(** On a state reached by method calls from a new [PriorityOrder], the
    calls that only ask ([is_consistent], [is_cb_consistent],
    [count_inconsistencies], [is_case_consistent_with]), in any number and
    order, returning or raising, leave the order as it is and change no later
    answer of [is_consistent], [is_cb_consistent] or
    [count_inconsistencies]. *)
Theorem queries_change_no_answer (ops : list op) (qs : list query) :
  order (run_ops_from (run_ops ops) (op_of_query <$> qs)) = order (run_ops ops)
  ∧ (∀ r d, (is_consistent r d (run_ops_from (run_ops ops) (op_of_query <$> qs))).1
            = (is_consistent r d (run_ops ops)).1)
  ∧ (is_cb_consistent (run_ops_from (run_ops ops) (op_of_query <$> qs))).1
    = (is_cb_consistent (run_ops ops)).1
  ∧ (count_inconsistencies (run_ops_from (run_ops ops) (op_of_query <$> qs))).1
    = (count_inconsistencies (run_ops ops)).1.
Proof.
  pose proof (run_ops_sync ops) as Hsync.
  pose proof (run_queries_audit _ qs Hsync) as Hs.
  pose proof Hs as (Hsync' & Ho & _).
  split_and!.
  - done.
  - intros r d. by apply is_consistent_audit.
  - rewrite !is_cb_consistent_audit by done. by rewrite (audit_result_audit _ _ Hs).
  - rewrite !count_inconsistencies_audit by done. by rewrite (count_result_audit _ _ Hs).
Qed.

(** [CaseBase(caselist).metrics()], when no case of the list has an empty
    defeated set stored as a key, returns the length of the list and the
    number of pairs stored in the order. *)
Theorem metrics_after_bulk_load (h : lists) (caselist : option nat) :
  ∅ ∉ dd_keys (order (run_ops [UnsafeAddCases (list_at h (default default_caselist caselist))])) →
  ∃ cb, CaseBase_init caselist h = (Ok cb, h)
        ∧ (metrics cb h).1
          = Ok (length (list_at h (cb_cases cb)), length (stored_pairs (cb_order cb))).
Proof.
  intros Hkeys. eexists. rewrite CaseBase_init_run. split; [done|].
  unfold metrics. cbn [cb_cases cb_order].
  set (l := list_at h (default default_caselist caselist)) in *.
  assert (run_ops [UnsafeAddCases l] = unsafe_add_cases_state l PriorityOrder_init) as Hrun.
  { unfold run_ops. cbn [foldl run_op]. by rewrite unsafe_add_cases_run. }
  rewrite Hrun in Hkeys.
  assert (index_sync (unsafe_add_cases_state l PriorityOrder_init)) as Hsync.
  { rewrite <- Hrun. apply run_ops_sync. }
  pose proof (count_inconsistencies_audit _ Hsync) as Hc.
  rewrite count_result_all in Hc by done.
  destruct (count_inconsistencies _) as [[n|e] o]; cbn [fst] in *; [|done].
  by injection Hc as ->.
Qed.

Lemma metrics_after_bulk_load_witness :
  ∃ cb, CaseBase_init (Some 1) (<[1 := [case_pi_A_B]]> lists_init)
        = (Ok cb, <[1 := [case_pi_A_B]]> lists_init)
        ∧ (metrics cb (<[1 := [case_pi_A_B]]> lists_init)).1
          = Ok (length (list_at (<[1 := [case_pi_A_B]]> lists_init) (cb_cases cb)),
                length (stored_pairs (cb_order cb))).
Proof.
  apply (metrics_after_bulk_load (<[1 := [case_pi_A_B]]> lists_init) (Some 1)).
  apply (bool_decide_unpack _). vm_compute. exact I.
Defined.

(** ** Folding the same case in twice *)

Lemma add_pair_state_extends r1 r2 s : extends s (add_pair_state r1 r2 s).
Proof.
  unfold add_pair_state.
  repeat case_bool_decide; try reflexivity; apply add_order_state_extends.
Qed.

Lemma add_pairs_state_extends X ds s : extends s (add_pairs_state X ds s).
Proof.
  unfold add_pairs_state. revert s.
  induction ds as [|d ds IH]; intros s; simpl; [reflexivity|].
  etrans; [apply (add_pair_state_extends X d)|apply IH].
Qed.

(** [stored s R D]: the pair is in the order, and [D] is indexed under each
    of its factors. *)
Definition stored (s : PriorityOrder) (R D : fset) : Prop :=
  outweighs s R D ∧ ∀ f, f ∈ D → D ∈ dd_bucket f (defeated_factor_index s).

Lemma stored_extends s s' R D : extends s s' → stored s R D → stored s' R D.
Proof.
  intros (Ho & Hi & _) [HR HD]. split; [by apply Ho|]. intros f Hf. by apply Hi, HD.
Qed.

Section twice.
Context (X : fset).

(** Nothing is left to do for the pair of [X] and [y]:
    [add_pair_as_appropriate(X, y)] has no insertion to make, or its
    insertion is already stored. *)
Definition settled (s : PriorityOrder) (y : fset) : Prop :=
  X = y ∨ (¬ X ⊆ y ∧ ¬ y ⊆ X) ∨ (X ⊆ y ∧ stored s y X) ∨ (y ⊆ X ∧ stored s X y).

Lemma settled_extends s s' y : extends s s' → settled s y → settled s' y.
Proof.
  intros He [?|[?|[[? ?]|[? ?]]]]; unfold settled; eauto 6 using stored_extends.
Qed.

Lemma settled_id s y : settled s y → add_pair_state X y s = s.
Proof.
  intros Hy. unfold add_pair_state.
  case_bool_decide as Heq; [done|].
  case_bool_decide as H1.
  - destruct Hy as [?|[[? ?]|[[_ [? ?]]|[H2 _]]]]; [done|done|by apply add_order_state_id|].
    destruct Heq. set_solver.
  - case_bool_decide as H2; [|done].
    destruct Hy as [?|[[? ?]|[[? _]|[_ [? ?]]]]]; [done|done|done|by apply add_order_state_id].
Qed.

Lemma settled_after s y : settled (add_pair_state X y s) y.
Proof.
  unfold add_pair_state, settled.
  case_bool_decide as Heq; [by left|].
  case_bool_decide as H1; [right; right; left; split; [done|apply add_order_state_stored]|].
  case_bool_decide as H2; [right; right; right; split; [done|apply add_order_state_stored]|].
  right; by left.
Qed.

(** Every key and every member of a bucket of the order is settled, unless
    it is exempted: [E k] exempts the key [k] and the members of its
    bucket. *)
Definition all_settled (E : fset → Prop) (s : PriorityOrder) : Prop :=
  (∀ k, k ∈ dd_keys (order s) → E k ∨ settled s k)
  ∧ (∀ k m, m ∈ dd_bucket k (order s) → E k ∨ settled s m).

Lemma add_order_state_all_settled E R D s :
  all_settled E s →
  settled (add_order_state R D s) R → settled (add_order_state R D s) D →
  all_settled E (add_order_state R D s).
Proof.
  intros [Hk Hm] HR HD. pose proof (add_order_state_extends R D s) as He. split.
  - intros k Hkey. unfold add_order_state in Hkey. cbn [order] in Hkey.
    apply dd_keys_add in Hkey as [->|Hkey]; [by right|].
    destruct (Hk k Hkey); [by left|right; by eapply settled_extends].
  - intros k m Hin. rewrite order_add_order_state in Hin.
    case_decide as Hd.
    + subst k. apply elem_of_union in Hin as [->%elem_of_singleton|Hin]; [by right|].
      destruct (Hm D m Hin); [by left|right; by eapply settled_extends].
    + destruct (Hm k m Hin); [by left|right; by eapply settled_extends].
Qed.

Lemma add_pair_state_all_settled E y s :
  all_settled E s → all_settled E (add_pair_state X y s).
Proof.
  intros Hs. pose proof (settled_after s y) as Hy. unfold add_pair_state in *.
  case_bool_decide as Heq; [done|].
  case_bool_decide as H1; [apply add_order_state_all_settled; [done|done|by left]|].
  case_bool_decide as H2; [apply add_order_state_all_settled; [done|by left|done]|].
  done.
Qed.

Lemma add_pairs_state_all_settled E ms s :
  all_settled E s →
  all_settled E (add_pairs_state X ms s) ∧ ∀ m, m ∈ ms → settled (add_pairs_state X ms s) m.
Proof.
  unfold add_pairs_state. revert s.
  induction ms as [|m ms IH]; intros s Hs; cbn [foldl].
  - split; [done|]. by intros m ?%elem_of_nil.
  - destruct (IH _ (add_pair_state_all_settled E m s Hs)) as [Hall Hms].
    split; [done|]. intros m' [->|Hm']%elem_of_cons; [|by apply Hms].
    eapply settled_extends; [apply (add_pairs_state_extends X ms)|apply settled_after].
Qed.

(** A round of the loop of [unsafe_add_case] takes its key off the
    exempted ones. *)
Lemma visit_key_state_all_settled r rest s :
  all_settled (λ k, k ∈ r :: rest) s →
  all_settled (λ k, k ∈ rest) (visit_key_state X r s).
Proof.
  intros Hs. unfold visit_key_state.
  set (s1 := add_pair_state X r s).
  pose proof (add_pair_state_all_settled _ r s Hs) as Hs1. fold s1 in Hs1.
  pose proof (settled_after s r) as Hr. fold s1 in Hr.
  destruct (add_pairs_state_all_settled _ (elements (dd_bucket r (order s1))) s1 Hs1)
    as [[Hk Hm] Hms].
  destruct (inner_loop_run X r (dd_bucket r (order s1)) (elements (dd_bucket r (order s1))) s1)
    as [_ Hbucket]; [done|by intros d ?%elem_of_elements|apply add_pair_state_records|].
  set (s2 := add_pairs_state X (elements (dd_bucket r (order s1))) s1) in *.
  assert (settled s2 r) as Hr2
    by (eapply settled_extends; [apply add_pairs_state_extends|done]).
  split.
  - intros k Hkey. destruct (Hk k Hkey) as [[->|?]%elem_of_cons|?]; auto.
  - intros k m Hin. destruct (Hm k m Hin) as [[->|?]%elem_of_cons|?]; auto.
    right. apply Hms, elem_of_elements. by rewrite <- Hbucket.
Qed.

Lemma visit_keys_all_settled rs s :
  all_settled (λ k, k ∈ rs) s →
  all_settled (λ _, False) (foldl (λ s r, visit_key_state X r s) s rs).
Proof.
  revert s. induction rs as [|r rs IH]; intros s Hs; cbn [foldl].
  - destruct Hs as [Hk Hm]. split.
    + intros k Hkey. destruct (Hk k Hkey) as [?%elem_of_nil|?]; [done|by right].
    + intros k m Hin. destruct (Hm k m Hin) as [?%elem_of_nil|?]; [done|by right].
  - by apply IH, visit_key_state_all_settled.
Qed.

(** When everything is settled, a round of the loop changes nothing. *)
Lemma visit_key_state_id r s :
  all_settled (λ _, False) s → r ∈ dd_keys (order s) → visit_key_state X r s = s.
Proof.
  intros [Hk Hm] Hr. unfold visit_key_state.
  destruct (Hk r Hr) as [[]|Hsr]. rewrite (settled_id s r Hsr).
  assert (∀ ms, (∀ m, m ∈ ms → settled s m) → add_pairs_state X ms s = s) as Hms.
  { unfold add_pairs_state. induction ms as [|m ms IH]; intros Hall; [done|].
    cbn [foldl]. rewrite settled_id by (apply Hall; by left).
    apply IH. intros m' Hm'. apply Hall. by right. }
  apply Hms. intros m Hin%elem_of_elements. by destruct (Hm r m Hin) as [[]|?].
Qed.

Lemma visit_keys_id rs s :
  all_settled (λ _, False) s → (∀ r, r ∈ rs → r ∈ dd_keys (order s)) →
  foldl (λ s r, visit_key_state X r s) s rs = s.
Proof.
  intros Hs. induction rs as [|r rs IH]; intros Hrs; [done|].
  cbn [foldl]. rewrite visit_key_state_id; [|done|apply Hrs; by left].
  apply IH. intros r' Hr'. apply Hrs. by right.
Qed.
End twice.

Lemma visit_keys_extends X rs s : extends s (foldl (λ s r, visit_key_state X r s) s rs).
Proof.
  revert s. induction rs as [|r rs IH]; intros s; cbn [foldl]; [reflexivity|].
  etrans; [|apply IH]. unfold visit_key_state.
  etrans; [apply (add_pair_state_extends X r)|apply add_pairs_state_extends].
Qed.

Lemma unsafe_add_case_state_twice c s :
  unsafe_add_case_state c (unsafe_add_case_state c s) = unsafe_add_case_state c s.
Proof.
  assert (all_settled (reason c) (λ _, False) (unsafe_add_case_state c s)) as Hall.
  { unfold unsafe_add_case_state. apply visit_keys_all_settled. split.
    - intros k Hk. by left.
    - intros k m Hm. left. by apply (dd_bucket_keys k m). }
  assert (stored (unsafe_add_case_state c s) (reason c) (defeated c)) as [HXD Hidx].
  { eapply stored_extends; [apply visit_keys_extends|apply add_order_state_stored]. }
  unfold unsafe_add_case_state at 1.
  rewrite (add_order_state_id (reason c) (defeated c)) by done.
  by apply visit_keys_id.
Qed.

(** Folding a case in a second time changes nothing: from every state,
    [unsafe_add_case(case)] called right after [unsafe_add_case(case)]
    returns and leaves the order and the index exactly as the first call
    left them. *)
Theorem unsafe_add_case_twice (case : Case) (s : PriorityOrder) :
  unsafe_add_case case (unsafe_add_case case s).2 = (Ok (), (unsafe_add_case case s).2).
Proof. rewrite !unsafe_add_case_run. cbn [snd]. f_equal. apply unsafe_add_case_state_twice. Qed.
